(** * Bloch simulation driven by a pulseq sequence: a shallow embedding

    The development follows [src/server/simulation/bloch/blochsim_pulseq.py].
    Times and amplitudes are rationals (exact arithmetic), compared with
    [==]; Python exceptions are values of an error monad; the isochromat
    object, which the code mutates in place, is threaded as explicit
    state through an interface with the four methods the code calls. *)

From Stdlib Require Import List ZArith QArith Qround Lia Lqa Bool.
From Stdlib Require Import Permutation Sorted.
Import ListNotations.

Open Scope Q_scope.

(** ** Exceptions *)

Inductive exn : Type := KeyError | ValueError | IndexError.

Inductive result (A : Type) : Type :=
| Ok (a : A)
| Raise (e : exn).

Arguments Ok {A} a.
Arguments Raise {A} e.

Definition bind {A B : Type} (m : result A) (k : A -> result B) : result B :=
  match m with
  | Ok a => k a
  | Raise e => Raise e
  end.

Notation "x <- m ;; k" := (bind m (fun x => k))
  (at level 61, m at next level, right associativity).
Notation "' p <- m ;; k" := (bind m (fun x => match x with p => k end))
  (at level 61, p pattern, m at next level, right associativity).

Definition is_ok {A : Type} (m : result A) : bool :=
  match m with Ok _ => true | Raise _ => false end.

Fixpoint mapM {A B : Type} (f : A -> result B) (l : list A) : result (list B) :=
  match l with
  | [] => Ok []
  | a :: l' => b <- f a ;; bs <- mapM f l' ;; Ok (b :: bs)
  end.

(** Subscripting [d[k]] on a mapping with optional entries. *)
Definition getitem {A : Type} (o : option A) : result A :=
  match o with Some a => Ok a | None => Raise KeyError end.

(** Subscripting [a[i]] on a sequence. *)
Definition index {A : Type} (l : list A) (i : nat) : result A :=
  match nth_error l i with Some a => Ok a | None => Raise IndexError end.

(** ** The numpy and builtin operations the code calls *)

Module Np.

(** [np.arange(start, stop, step)]: [ceil((stop - start) / step)] points
    [start + i * step], none when that number is not positive.  The
    rule is taken in exact arithmetic: in doubles the quotient is
    rounded, and the number of points can differ by one. *)
Definition arange (start stop step : Q) : list Q :=
  map (fun i => start + inject_Z (Z.of_nat i) * step)
      (seq 0 (Z.to_nat (Qceiling ((stop - start) / step)))).

Definition zeros (n : nat) : list Q := repeat 0 n.

(** The search of [np.interp] from control point [(x0, y0)] on: advance
    while the key is at least the next abscissa, then interpolate on the
    interval found.  The last control point and an exact hit return the
    ordinate itself. *)
Fixpoint interp_from (x x0 y0 : Q) (rest : list (Q * Q)) : Q :=
  match rest with
  | [] => y0
  | (x1, y1) :: rest' =>
      if Qle_bool x1 x then interp_from x x1 y1 rest'
      else if Qeq_bool x0 x then y0
      else (y1 - y0) / (x1 - x0) * (x - x0) + y0
  end.

Definition interp1 (pts : list (Q * Q)) (x : Q) : Q :=
  match pts with
  | [] => 0
  | (x0, y0) :: rest =>
      let (xn, yn) := last pts (x0, y0) in
      if Qlt_le_dec xn x then yn
      else if Qlt_le_dec x x0 then y0
      else interp_from x x0 y0 rest
  end.

(** [np.interp(x, xp, fp)] with the default left and right values. *)
Definition interp (x xp fp : list Q) : result (list Q) :=
  match xp with
  | [] => Raise ValueError
  | _ :: _ =>
      if Nat.eqb (length xp) (length fp)
      then Ok (map (interp1 (combine xp fp)) x)
      else Raise ValueError
  end.

(** [np.trapz(y, x)] on arrays of the same length: the composite
    trapezoidal rule. *)
Fixpoint trapz_pts (pts : list (Q * Q)) : Q :=
  match pts with
  | (x0, y0) :: (((x1, y1) :: _) as rest) =>
      (x1 - x0) * (y1 + y0) / 2 + trapz_pts rest
  | _ => 0
  end.

(** The differences [diff(x)] and the sums of neighbours
    [y[1:] + y[:-1]] that [np.trapz] multiplies. *)
Fixpoint diff (x : list Q) : list Q :=
  match x with
  | x0 :: ((x1 :: _) as rest) => (x1 - x0) :: diff rest
  | _ => []
  end.

Fixpoint neighbour_sums (y : list Q) : list Q :=
  match y with
  | y0 :: ((y1 :: _) as rest) => (y1 + y0) :: neighbour_sums rest
  | _ => []
  end.

Definition sum (l : list Q) : Q := fold_left Qplus l 0.

(** [np.trapz(y, x)]: [(diff(x) * (y[1:] + y[:-1]) / 2).sum()].  With
    arrays of different lengths the product broadcasts a factor of one
    element, and raises when there is none. *)
Definition trapz (y x : list Q) : result Q :=
  if Nat.eqb (length y) (length x) then Ok (trapz_pts (combine x y))
  else
    let d := diff x in
    let s := neighbour_sums y in
    if Nat.eqb (length d) (length s) then
      Ok (sum (map (fun p => fst p * snd p / 2) (combine d s)))
    else
      match d, s with
      | [d0], _ => Ok (sum (map (fun sj => d0 * sj / 2) s))
      | _, [s0] => Ok (sum (map (fun di => di * s0 / 2) d))
      | _, _ => Raise ValueError
      end.

(** The builtin [max] of a list: the first greatest element. *)
Definition max (l : list Q) : result Q :=
  match l with
  | [] => Raise ValueError
  | a :: l' => Ok (fold_left (fun m x => if Qlt_le_dec m x then x else m) l' a)
  end.

End Np.

(** ** Data model: blocks and their events *)

Definition GAMMA_BAR : Q := 42580000.

Record Trapezoid : Type := {
  amplitude : Q;
  rise_time : Q;
  flat_time : Q;
  fall_time : Q;
  area : Q
}.

(** An arbitrary gradient carries its sample times [g.t[0]] and its
    waveform, both as rows of samples. *)
Record Arbitrary : Type := {
  arb_t : list Q;
  arb_waveform : list Q
}.

(** [g.type == 'trap'] or not. *)
Inductive Grad : Type :=
| Trap (g : Trapezoid)
| Grd (g : Arbitrary).

Record DelayEvent : Type := { delay_delay : list Q }.

Record RfEvent : Type := {
  rf_signal : list (Q * Q);
  rf_t : list (list Q)
}.

Record AdcEvent : Type := {
  adc_dwell : Q;
  adc_delay : Q;
  adc_num_samples : nat
}.

Record Block : Type := {
  blk_delay : option DelayEvent;
  blk_rf : option RfEvent;
  blk_gx : option Grad;
  blk_gy : option Grad;
  blk_gz : option Grad;
  blk_adc : option AdcEvent
}.

Inductive axis : Type := gx | gy | gz.

Definition axes : list axis := [gx; gy; gz].

Definition blk_grad (blk : Block) (g_name : axis) : option Grad :=
  match g_name with
  | gx => blk_gx blk
  | gy => blk_gy blk
  | gz => blk_gz blk
  end.

(** ** Helpers *)

Definition grad_duration (g : Grad) (dt : Q) : Q :=
  match g with
  | Trap g => rise_time g + flat_time g + fall_time g
  | Grd g => inject_Z (Z.of_nat (length (arb_t g))) * dt
  end.

Fixpoint grad_times (blk : Block) (dt : Q) (names : list axis) : list Q :=
  match names with
  | [] => []
  | g_name :: names' =>
      match blk_grad blk g_name with
      | Some g => grad_duration g dt :: grad_times blk dt names'
      | None => grad_times blk dt names'
      end
  end.

Definition find_precessing_time (blk : Block) (dt : Q) : result Q :=
  Np.max (grad_times blk dt axes).

Definition scale (c : Q) (v : list Q) : list Q := map (fun a => a * c) v.

Definition divide (v : list Q) (c : Q) : list Q := map (fun a => a / c) v.

Definition g_area (g : Grad) : result Q :=
  match g with
  | Trap g => Ok (area g)
  | Grd g => Np.trapz (arb_waveform g) (arb_t g)
  end.

Definition combine_gradient_areas (blk : Block) : result (list Q) :=
  grad_areas <- mapM (fun g_name =>
                        match blk_grad blk g_name with
                        | Some g => g_area g
                        | None => Ok 0
                        end) axes ;;
  Ok (divide grad_areas GAMMA_BAR).

(** The control points handed to [np.interp]. *)
Definition g_time (g : Grad) : list Q :=
  match g with
  | Trap g =>
      [0; rise_time g; rise_time g + flat_time g;
       rise_time g + flat_time g + fall_time g]
  | Grd g => arb_t g
  end.

Definition g_shape (g : Grad) : list Q :=
  match g with
  | Trap g => [0; amplitude g / GAMMA_BAR; amplitude g / GAMMA_BAR; 0]
  | Grd g => divide (arb_waveform g) GAMMA_BAR
  end.

Definition grad_row (blk : Block) (grad_timing : list Q) (g_name : axis)
  : result (list Q) :=
  match blk_grad blk g_name with
  | Some g => Np.interp grad_timing (g_time g) (g_shape g)
  | None => Ok (Np.zeros (length grad_timing))
  end.

Definition grad_timing_of (blk : Block) (dt : Q) (timing : list Q) (delay : Q)
  : result (list Q * Q) :=
  if negb (Qeq_bool dt 0) then
    duration <- find_precessing_time blk dt ;;
    Ok (if Qeq_bool delay 0 then Np.arange 0 duration dt
        else 0 :: Np.arange delay duration dt,
        duration)
  else if negb (Nat.eqb (length timing) 0) then
    Ok (timing, last timing 0 - hd 0 timing)
  else Ok ([], 0).

Definition combine_gradients (blk : Block) (dt : Q) (timing : list Q) (delay : Q)
  : result (list (list Q) * list Q * Q) :=
  '(grad_timing, duration) <- grad_timing_of blk dt timing delay ;;
  grad <- mapM (grad_row blk grad_timing) axes ;;
  Ok (grad, grad_timing, duration).

(** ** The sequence and the isochromat *)

(** One row of the block-event table: the identifiers of the delay, RF,
    gx, gy, gz and ADC events of the block (columns 0 to 5); 0 means
    none. *)
Record EventRow : Type := {
  ev0 : Z; ev1 : Z; ev2 : Z; ev3 : Z; ev4 : Z; ev5 : Z
}.

(** [block_events] is a dict: its keys are iterated in insertion order. *)
Record Sequence : Type := {
  block_events : list (Z * EventRow);
  get_block : Z -> Block;
  grad_raster_time : Q;
  rf_raster_time : Q
}.

(** The methods of [SpinGroup] the simulation calls.  Each mutates the
    object in place: here it returns the new state. *)
Class SpinGroup (I Sig : Type) : Type := {
  isc_delay : Q -> I -> I;
  apply_rf : list (Q * Q) -> list (list Q) -> Q -> I -> I;
  fpwg : list Q -> Q -> I -> I;
  get_m_signal : I -> Sig
}.

(** [grad[:, v]] *)
Definition column (grad : list (list Q)) (v : nat) : result (list Q) :=
  mapM (fun row => index row v) grad.

Definition nonzero (z : Z) : bool := negb (Z.eqb z 0).

Section Dispatcher.

Context {I Sig : Type} `{SpinGroup I Sig}.

(** The sampling loop of an ADC block, one iteration per element of
    [range(1, len(timing))]. *)
Fixpoint adc_loop (grad : list (list Q)) (dt_adc : Q) (num_samples : nat)
         (qs : list nat) (v : nat) (isc : I) (signal_1D : list Sig)
  : result (I * list Sig) :=
  match qs with
  | [] => Ok (isc, signal_1D)
  | _ :: qs' =>
      let signal_1D :=
        if Nat.leb v num_samples then signal_1D ++ [get_m_signal isc]
        else signal_1D in
      g <- column grad v ;;
      adc_loop grad dt_adc num_samples qs' (S v)
               (fpwg (scale dt_adc g) dt_adc isc) signal_1D
  end.

Definition case_delay (this_blk : Block) (isc : I) : result I :=
  d <- getitem (blk_delay this_blk) ;;
  delay <- index (delay_delay d) 0 ;;
  Ok (isc_delay delay isc).

Definition case_rf (dt_rf : Q) (this_blk : Block) (isc : I) : result I :=
  rf <- getitem (blk_rf this_blk) ;;
  let b1 := map (fun c => (fst c / GAMMA_BAR, snd c / GAMMA_BAR)) (rf_signal rf) in
  t0 <- index (rf_t rf) 0 ;;
  let rf_time := map (fun t => t - dt_rf) t0 in
  '(rf_grad, rf_timing, rf_duration) <- combine_gradients this_blk 0 rf_time 0 ;;
  Ok (apply_rf b1 rf_grad dt_rf isc).

Definition case_adc (this_blk : Block) (isc : I) : result (I * list Sig) :=
  adc <- getitem (blk_adc this_blk) ;;
  let dt_adc := adc_dwell adc in
  let delay := adc_delay adc in
  '(grad, timing, duration) <- combine_gradients this_blk dt_adc [] delay ;;
  g0 <- column grad 0 ;;
  let isc := fpwg (scale delay g0) delay isc in
  adc_loop grad dt_adc (adc_num_samples adc)
           (seq 1 (length timing - 1)) 1 isc [].

Definition case_grad (dt_grad : Q) (this_blk : Block) (isc : I) : result I :=
  fp_grads_area <- combine_gradient_areas this_blk ;;
  dur <- find_precessing_time this_blk dt_grad ;;
  Ok (fpwg fp_grads_area dur isc).

(** The body of the loop over the blocks. *)
Definition apply_block (dt_grad dt_rf : Q) (event_row : EventRow)
           (this_blk : Block) (isc : I) (signal : list (list Sig))
  : result (I * list (list Sig)) :=
  if nonzero (ev0 event_row) then
    isc <- case_delay this_blk isc ;; Ok (isc, signal)
  else if nonzero (ev1 event_row) then
    isc <- case_rf dt_rf this_blk isc ;; Ok (isc, signal)
  else if nonzero (ev5 event_row) then
    '(isc, signal_1D) <- case_adc this_blk isc ;;
    Ok (isc, signal ++ [signal_1D])
  else if nonzero (ev2 event_row) || nonzero (ev3 event_row)
          || nonzero (ev4 event_row) then
    isc <- case_grad dt_grad this_blk isc ;; Ok (isc, signal)
  else Ok (isc, signal).

Fixpoint run_blocks (seq : Sequence) (events : list (Z * EventRow))
         (isc : I) (signal : list (list Sig))
  : result (I * list (list Sig)) :=
  match events with
  | [] => Ok (isc, signal)
  | (key, event_row) :: events' =>
      '(isc, signal) <-
        apply_block (grad_raster_time seq) (rf_raster_time seq) event_row
                    (get_block seq key) isc signal ;;
      run_blocks seq events' isc signal
  end.

(** [apply_pulseq]: the final state of the isochromat and the signal
    returned. *)
Definition apply_pulseq (isc : I) (seq : Sequence)
  : result (I * list (list Sig)) :=
  run_blocks seq (block_events seq) isc [].

End Dispatcher.

(** ** The parallel runner *)

Record Phantom (Loc Params : Type) : Type := {
  get_list_inds : list nat;
  get_location : nat -> Loc;
  get_params : nat -> Params
}.

Arguments get_list_inds {Loc Params} p.
Arguments get_location {Loc Params} p loc_ind.
Arguments get_params {Loc Params} p loc_ind.

Definition shape {A : Type} (m : list (list A)) : list nat :=
  map (@length A) m.

Definition rectangular (sh : list nat) : bool :=
  match sh with
  | [] => true
  | c :: sh' => forallb (Nat.eqb c) sh'
  end.

Definition same_shape (a b : list nat) : bool :=
  if list_eq_dec Nat.eq_dec a b then true else false.

(** Whether a list of per-location signals stacks into one array. *)
Definition homogeneous {A : Type} (results : list (list (list A))) : bool :=
  match results with
  | [] => true
  | m0 :: rest =>
      rectangular (shape m0)
      && forallb (fun m => same_shape (shape m) (shape m0)) rest
  end.

Definition map2 {A : Type} (f : A -> A -> A) (a b : list A) : list A :=
  map (fun p => f (fst p) (snd p)) (combine a b).

(** What [np.sum(results, axis=0)] returns: the scalar 0.0 for no
    location at all, else an array of the shape of one signal. *)
Inductive ndarray (A : Type) : Type :=
| Scalar (s : A)
| Matrix (m : list (list A)).

Arguments Scalar {A} s.
Arguments Matrix {A} m.

Section Runner.

Context {I Sig : Type} `{SpinGroup I Sig}.
Context {Loc Params : Type}.

(** The constructor [SpinGroup(loc, pdt1t2, df)]. *)
Variable new_SpinGroup : Loc -> Params -> Q -> I.

(** Complex addition and zero. *)
Variable sig_add : Sig -> Sig -> Sig.
Variable sig_zero : Sig.

Definition sim_single_spingroup (loc_ind : nat) (freq_offset : Q)
           (phantom : Phantom Loc Params) (seq : Sequence)
  : result (list (list Sig)) :=
  let isc := new_SpinGroup (get_location phantom loc_ind)
                           (get_params phantom loc_ind) freq_offset in
  '(_, signal) <- apply_pulseq isc seq ;;
  Ok signal.

Definition mat_add (a b : list (list Sig)) : list (list Sig) :=
  map2 (map2 sig_add) a b.

Definition np_sum_axis0 (results : list (list (list Sig)))
  : result (ndarray Sig) :=
  if homogeneous results then
    match results with
    | [] => Ok (Scalar sig_zero)
    | m0 :: rest => Ok (Matrix (fold_left mat_add rest m0))
    end
  else Raise ValueError.


(** The main program on the locations [loc_ind_list] of the phantom:
    one simulation per location, results in the order of the list,
    then the sum over the locations. *)
Definition ensemble (loc_ind_list : list nat) (df : Q)
           (phantom : Phantom Loc Params) (myseq : Sequence)
  : result (ndarray Sig) :=
  results <- mapM (fun loc_ind => sim_single_spingroup loc_ind df phantom myseq)
                  loc_ind_list ;;
  np_sum_axis0 results.

Definition main (df : Q) (phantom : Phantom Loc Params) (myseq : Sequence)
  : result (ndarray Sig) :=
  ensemble (get_list_inds phantom) df phantom myseq.

End Runner.

(** ** Two isochromats to run the code on *)

(** An isochromat that records the calls made on it, latest last; its
    signal is the number of calls so far. *)
Inductive Call : Type :=
| CallDelay (t : Q)
| CallRf (b1 : list (Q * Q)) (grad : list (list Q)) (dt : Q)
| CallFpwg (grad_area : list Q) (t : Q).

#[export] Instance Recorder : SpinGroup (list Call) nat := {
  isc_delay t isc := isc ++ [CallDelay t];
  apply_rf b1 grad dt isc := isc ++ [CallRf b1 grad dt];
  fpwg grad_area t isc := isc ++ [CallFpwg grad_area t];
  get_m_signal isc := length isc
}.

(** An isochromat with an integer state that every call increments. *)
Definition Counter : SpinGroup Z Z := {|
  isc_delay _ isc := (isc + 1)%Z;
  apply_rf _ _ _ isc := (isc + 1)%Z;
  fpwg _ _ isc := (isc + 1)%Z;
  get_m_signal isc := isc
|}.

(** Sample blocks. *)
Definition no_event : Block :=
  {| blk_delay := None; blk_rf := None; blk_gx := None; blk_gy := None;
     blk_gz := None; blk_adc := None |}.

Definition trap1 : Trapezoid :=
  {| amplitude := GAMMA_BAR; rise_time := 1; flat_time := 1; fall_time := 1;
     area := 2 * GAMMA_BAR |}.

Definition adc_blk (num : nat) : Block :=
  {| blk_delay := None; blk_rf := None; blk_gx := Some (Trap trap1);
     blk_gy := None; blk_gz := None;
     blk_adc := Some {| adc_dwell := 1 # 2; adc_delay := 1 # 2;
                        adc_num_samples := num |} |}.

(** ** Definitions used to state the properties *)

(** Column [v] of the gradient array, 0 where a row is too short. *)
Definition column_at (grad : list (list Q)) (v : nat) : list Q :=
  map (fun row => nth v row 0) grad.

Section Advances.

Context {I Sig : Type} `{SpinGroup I Sig}.

(** [k] advances of one dwell time each, under the gradient samples of
    columns [v], [v + 1], ..., [v + k - 1]. *)
Fixpoint dwell_advances (grad : list (list Q)) (dt_adc : Q) (v k : nat)
         (isc : I) : I :=
  match k with
  | O => isc
  | S k' =>
      dwell_advances grad dt_adc (S v) k'
                     (fpwg (scale dt_adc (column_at grad v)) dt_adc isc)
  end.


End Advances.

(** The value reconstructed on axis [g_name] at time [t]. *)
Definition grad_value (blk : Block) (g_name : axis) (t : Q) : Q :=
  match blk_grad blk g_name with
  | Some g => Np.interp1 (combine (g_time g) (g_shape g)) t
  | None => 0
  end.

(** Two runs end alike: with the same exception, or with results
    related by [R]. *)
Definition same_outcome {A B : Type} (R : A -> B -> Prop)
           (r1 : result A) (r2 : result B) : Prop :=
  match r1, r2 with
  | Ok a, Ok b => R a b
  | Raise e1, Raise e2 => e1 = e2
  | _, _ => False
  end.

(** The shape of a returned signal, or the exception. *)
Definition result_shape {A : Type} (r : result (list (list A)))
  : result (list nat) :=
  match r with
  | Ok signal => Ok (shape signal)
  | Raise e => Raise e
  end.

(** The four event kinds, and the one the block-event row selects (the
    priority order of the spec: delay, then RF, then ADC, then
    gradients only). *)
Inductive kind : Type := Delay | Rf | Adc | GradOnly.

Definition dispatch (event_row : EventRow) : option kind :=
  if nonzero (ev0 event_row) then Some Delay
  else if nonzero (ev1 event_row) then Some Rf
  else if nonzero (ev5 event_row) then Some Adc
  else if nonzero (ev2 event_row) || nonzero (ev3 event_row)
          || nonzero (ev4 event_row) then Some GradOnly
  else None.

Section RunKind.

Context {I Sig : Type} `{SpinGroup I Sig}.

(** The handling of a block of a given kind; nothing for no kind. *)
Definition run_kind (dt_grad dt_rf : Q) (k : option kind) (this_blk : Block)
           (isc : I) (signal : list (list Sig))
  : result (I * list (list Sig)) :=
  match k with
  | Some Delay => isc <- case_delay this_blk isc ;; Ok (isc, signal)
  | Some Rf => isc <- case_rf dt_rf this_blk isc ;; Ok (isc, signal)
  | Some Adc =>
      '(isc, signal_1D) <- case_adc this_blk isc ;;
      Ok (isc, signal ++ [signal_1D])
  | Some GradOnly => isc <- case_grad dt_grad this_blk isc ;; Ok (isc, signal)
  | None => Ok (isc, signal)
  end.

End RunKind.

(** A block carries no gradient on any axis. *)
Definition no_gradient (blk : Block) : Prop :=
  blk_gx blk = None /\ blk_gy blk = None /\ blk_gz blk = None.

(** What [get_block] of pulseq provides: a gradient sub-event on each
    axis whose identifier in the row is not 0. *)
Definition gradients_populated (event_row : EventRow) (blk : Block) : Prop :=
  (ev2 event_row <> 0%Z -> blk_gx blk <> None)
  /\ (ev3 event_row <> 0%Z -> blk_gy blk <> None)
  /\ (ev4 event_row <> 0%Z -> blk_gz blk <> None).

Definition adc_row : EventRow :=
  {| ev0 := 0; ev1 := 0; ev2 := 0; ev3 := 0; ev4 := 0; ev5 := 1 |}.

Definition adc_only : Block :=
  {| blk_delay := None; blk_rf := None; blk_gx := None; blk_gy := None;
     blk_gz := None;
     blk_adc := Some {| adc_dwell := 1 # 2; adc_delay := 0;
                        adc_num_samples := 4 |} |}.

Definition adc_only_seq : Sequence :=
  {| block_events := [(1%Z, adc_row)];
     get_block := fun _ => adc_only;
     grad_raster_time := 1 # 100000;
     rf_raster_time := 1 # 1000000 |}.

(** A sequence of one gradient block and one ADC block with [num]
    declared samples, and a phantom of integer locations for the
    [Counter] isochromat, which starts at its location. *)
Definition grad_row_ev : EventRow :=
  {| ev0 := 0; ev1 := 0; ev2 := 1; ev3 := 0; ev4 := 0; ev5 := 0 |}.

Definition grad_adc_row : EventRow :=
  {| ev0 := 0; ev1 := 0; ev2 := 1; ev3 := 0; ev4 := 0; ev5 := 1 |}.

Definition grad_blk : Block :=
  {| blk_delay := None; blk_rf := None; blk_gx := Some (Trap trap1);
     blk_gy := None; blk_gz := None; blk_adc := None |}.

Definition adc_seq (num : nat) : Sequence :=
  {| block_events := [(1%Z, grad_row_ev); (2%Z, grad_adc_row)];
     get_block := fun key => if Z.eqb key 1 then grad_blk else adc_blk num;
     grad_raster_time := 1 # 100000;
     rf_raster_time := 1 # 1000000 |}.

Definition line_phantom : Phantom Z unit :=
  {| get_list_inds := [0; 1; 2]%nat;
     get_location := fun loc_ind => (10 * Z.of_nat loc_ind)%Z;
     get_params := fun _ => tt |}.

Definition new_Counter (loc : Z) (_ : unit) (_ : Q) : Z := loc.

Definition zero_row : EventRow :=
  {| ev0 := 0; ev1 := 0; ev2 := 0; ev3 := 0; ev4 := 0; ev5 := 0 |}.



Definition delay_grad_blk : Block :=
  {| blk_delay := Some {| delay_delay := [5] |}; blk_rf := None;
     blk_gx := Some (Trap trap1); blk_gy := None; blk_gz := None;
     blk_adc := None |}.

Definition delay_grad_row : EventRow :=
  {| ev0 := 1; ev1 := 0; ev2 := 1; ev3 := 0; ev4 := 0; ev5 := 0 |}.

(** The row of an axis in the gradient array. *)
Definition axis_index (a : axis) : nat :=
  match a with gx => 0 | gy => 1 | gz => 2 end.

(** The trapezoid of the spec, in frequency per distance: 0 before time
    0, a linear rise to the plateau over the rise time, the plateau over
    the flat time, a linear fall to 0 over the fall time, 0 afterwards. *)
Definition trap_wave (g : Trapezoid) (t : Q) : Q :=
  let p := amplitude g / GAMMA_BAR in
  let r := rise_time g in
  let f := flat_time g in
  let fl := fall_time g in
  if Qlt_le_dec t 0 then 0
  else if Qlt_le_dec t r then p * t / r
  else if Qlt_le_dec t (r + f) then p
  else if Qlt_le_dec t (r + f + fl) then p * (r + f + fl - t) / fl
  else 0.

(** The integral of [trap_wave] up to time [t]. *)
Definition trap_integral (g : Trapezoid) (t : Q) : Q :=
  let p := amplitude g / GAMMA_BAR in
  let r := rise_time g in
  let f := flat_time g in
  let fl := fall_time g in
  if Qlt_le_dec t 0 then 0
  else if Qlt_le_dec t r then p * t * t / (2 * r)
  else if Qlt_le_dec t (r + f) then p * r / 2 + p * (t - r)
  else if Qlt_le_dec t (r + f + fl) then
         p * r / 2 + p * f
         + p * (fl / 2 - (r + f + fl - t) * (r + f + fl - t) / (2 * fl))
  else p * r / 2 + p * f + p * fl / 2.

(** The area of a trapezoid by the formula of the spec, in frequency
    per distance times time. *)
Definition analytic_area (g : Trapezoid) : Q :=
  (1 # 2) * (flat_time g + (rise_time g + flat_time g + fall_time g))
  * (amplitude g / GAMMA_BAR).

(** The timing grid holds a point equal to [c]. *)
Definition on_grid (timing : list Q) (c : Q) : Prop :=
  exists x, In x timing /\ x == c.

(** A trapezoid without fall time. *)
Definition trap_no_fall : Trapezoid :=
  {| amplitude := GAMMA_BAR; rise_time := 1; flat_time := 1; fall_time := 0;
     area := (3 # 2) * GAMMA_BAR |}.

Definition no_fall_blk : Block :=
  {| blk_delay := None; blk_rf := None; blk_gx := Some (Trap trap_no_fall);
     blk_gy := None; blk_gz := None; blk_adc := None |}.


(** The sum of a list of arrays from the right, [None] for no array. *)
Fixpoint sum_opt {A : Type} (f : A -> A -> A) (l : list A) : option A :=
  match l with
  | [] => None
  | m :: l' =>
      match sum_opt f l' with
      | None => Some m
      | Some s => Some (f m s)
      end
  end.

(** Relations between the results of two runs: as many samples, signals
    of the same shape, any two states. *)
Definition alike_1D {I Sig : Type} (r1 r2 : I * list Sig) : Prop :=
  length (snd r1) = length (snd r2).

Definition alike {I Sig : Type} (r1 r2 : I * list (list Sig)) : Prop :=
  shape (snd r1) = shape (snd r2).

Definition any {I : Type} (_ _ : I) : Prop := True.


(** ** The T1 mapping script: the polarity restoration of one pixel

    From [src/server/ana/T1_mapping.py], the part of [main] that works on
    the samples [y_data] of one pixel: the samples before the first
    minimum are negated in place. *)

Module T1Mapping.

(** [np.argmin] from a current best value and index on. *)
Fixpoint argmin_from (best : Q) (best_loc cur : nat) (l : list Q) : nat :=
  match l with
  | [] => best_loc
  | x :: l' =>
      if Qlt_le_dec x best then argmin_from x cur (S cur) l'
      else argmin_from best best_loc (S cur) l'
  end.

(** [np.argmin(y_data)]: the index of the first least sample. *)
Definition argmin (y_data : list Q) : result nat :=
  match y_data with
  | [] => Raise ValueError
  | x :: l => Ok (argmin_from x 0 1 l)
  end.

(** [y_data[i] = v] *)
Fixpoint setitem (l : list Q) (i : nat) (v : Q) : result (list Q) :=
  match l, i with
  | [], _ => Raise IndexError
  | _ :: l', O => Ok (v :: l')
  | x :: l', S i' => l'' <- setitem l' i' v ;; Ok (x :: l'')
  end.

(** The loop [while n4 < min_loc], with [todo] iterations left. *)
Fixpoint flip_loop (todo n4 : nat) (y_data : list Q) : result (list Q) :=
  match todo with
  | O => Ok y_data
  | S todo' =>
      v <- index y_data n4 ;;
      y_data <- setitem y_data n4 (- v) ;;
      flip_loop todo' (S n4) y_data
  end.

(** Lines 55 to 60 of [main], on the samples of one pixel. *)
Definition restore_polarity (y_data : list Q) : result (list Q) :=
  min_loc <- argmin y_data ;;
  flip_loop (min_loc - 0) 0 y_data.

End T1Mapping.

(** ** Further definitions used to state properties *)

(** The number of blocks of the table dispatched as ADC. *)
Definition count_adc (events : list (Z * EventRow)) : nat :=
  length (filter (fun kr => match dispatch (snd kr) with
                            | Some Adc => true
                            | _ => false
                            end) events).

(** A block whose gradients are all trapezoids. *)
Definition trapezoids_only (blk : Block) : Prop :=
  forall a g, blk_grad blk a = Some g -> exists t, g = Trap t.

(** The area stored with a trapezoid is that of its shape. *)
Definition area_consistent (g : Trapezoid) : Prop :=
  area g == amplitude g * (rise_time g / 2 + flat_time g + fall_time g / 2).

(** The start of the raster part of the timing grid. *)
Definition raster_start (delay : Q) : Q :=
  if Qeq_bool delay 0 then 0 else delay.

(** The raster part of the timing grid: all of it without a delay, all
    but the leading 0 with one. *)
Definition raster_part (delay : Q) (timing : list Q) : list Q :=
  if Qeq_bool delay 0 then timing else tl timing.



(** ** Definitions that spell out the arguments of the advances *)

Section GridAdvances.

Context {I Sig : Type} `{SpinGroup I Sig}.


End GridAdvances.





(** A table whose keys are not in increasing order: the delay block of
    key 2 was inserted before the gradient block of key 1; and the same
    blocks inserted in the order of their keys. *)
Definition blocks_2_1 (key : Z) : Block :=
  if Z.eqb key 1 then grad_blk else delay_grad_blk.

Definition unsorted_seq : Sequence :=
  {| block_events := [(2%Z, delay_grad_row); (1%Z, grad_row_ev)];
     get_block := blocks_2_1;
     grad_raster_time := 1 # 100000;
     rf_raster_time := 1 # 1000000 |}.

Definition sorted_seq : Sequence :=
  {| block_events := [(1%Z, grad_row_ev); (2%Z, delay_grad_row)];
     get_block := blocks_2_1;
     grad_raster_time := 1 # 100000;
     rf_raster_time := 1 # 1000000 |}.

(** * Properties *)

(** ** General facts *)

Lemma bind_ok {A B : Type} (m : result A) (k : A -> result B) (b : B) :
  bind m k = Ok b -> exists a, m = Ok a /\ k a = Ok b.
Proof.
  destruct m as [a|e]; simpl; intros E; [exists a; auto | discriminate].
Qed.


Lemma mapM_length {A B : Type} (f : A -> result B) (l : list A) (bs : list B) :
  mapM f l = Ok bs -> length bs = length l.
Proof.
  revert bs; induction l as [|a l IH]; simpl; intros bs E.
  - now inversion E.
  - apply bind_ok in E as (b & _ & E). apply bind_ok in E as (bs' & E' & E).
    inversion E; subst; simpl. f_equal. now apply IH.
Qed.

Lemma mapM_Forall2 {A B : Type} (f : A -> result B) (l : list A) (bs : list B) :
  mapM f l = Ok bs -> Forall2 (fun a b => f a = Ok b) l bs.
Proof.
  revert bs; induction l as [|a l IH]; simpl; intros bs E.
  - inversion E. constructor.
  - apply bind_ok in E as (b & Eb & E). apply bind_ok in E as (bs' & E' & E).
    inversion E; subst. constructor; auto.
Qed.


(** ** The rows of the reconstructed gradient *)

Lemma interp_length (x xp fp r : list Q) :
  Np.interp x xp fp = Ok r -> length r = length x.
Proof.
  unfold Np.interp. destruct xp; [discriminate|].
  destruct (Nat.eqb _ _); [|discriminate].
  intros E; inversion E. apply length_map.
Qed.

Lemma grad_row_length (blk : Block) (timing : list Q) (a : axis) (r : list Q) :
  grad_row blk timing a = Ok r -> length r = length timing.
Proof.
  unfold grad_row. destruct (blk_grad blk a).
  - apply interp_length.
  - intros E; inversion E. apply repeat_length.
Qed.

Lemma combine_gradients_rows (blk : Block) (dt : Q) (tm : list Q) (delay : Q)
      (grad : list (list Q)) (timing : list Q) (duration : Q) :
  combine_gradients blk dt tm delay = Ok (grad, timing, duration) ->
  grad_timing_of blk dt tm delay = Ok (timing, duration)
  /\ mapM (grad_row blk timing) axes = Ok grad
  /\ Forall (fun row => length row = length timing) grad.
Proof.
  unfold combine_gradients. intros E.
  apply bind_ok in E as ([tg d] & Et & E).
  apply bind_ok in E as (g & Eg & E). inversion E; subst.
  repeat split; auto.
  apply mapM_Forall2 in Eg.
  induction Eg; constructor; eauto using grad_row_length.
Qed.

(** ** The ADC block *)

Section AdcFacts.

Context {I Sig : Type} `{SpinGroup I Sig}.

Lemma dwell_advances_last (grad : list (list Q)) (dt : Q) (k v : nat) (isc : I) :
  dwell_advances grad dt v (S k) isc
  = fpwg (scale dt (column_at grad (v + k))) dt (dwell_advances grad dt v k isc).
Proof.
  revert v isc; induction k as [|k IH]; intros v isc.
  - simpl. now rewrite Nat.add_0_r.
  - change (dwell_advances grad dt v (S (S k)) isc)
      with (dwell_advances grad dt (S v) (S k)
              (fpwg (scale dt (column_at grad v)) dt isc)).
    rewrite IH. simpl. now rewrite Nat.add_succ_r.
Qed.




End AdcFacts.

Lemma arange_length (start stop step : Q) :
  length (Np.arange start stop step)
  = Z.to_nat (Qceiling ((stop - start) / step)).
Proof. unfold Np.arange. now rewrite length_map, length_seq. Qed.









(** ** The shape of the signal depends on the sequence only *)

Lemma same_outcome_bind {A A' B B' : Type}
      (R : A -> A' -> Prop) (S : B -> B' -> Prop)
      (m : result A) (m' : result A') (k : A -> result B) (k' : A' -> result B') :
  same_outcome R m m' ->
  (forall a a', R a a' -> same_outcome S (k a) (k' a')) ->
  same_outcome S (bind m k) (bind m' k').
Proof.
  destruct m, m'; simpl; intros HR Hk; auto; contradiction.
Qed.

Lemma same_outcome_refl {A : Type} (R : A -> A -> Prop) (m : result A) :
  (forall a, R a a) -> same_outcome R m m.
Proof. destruct m; simpl; auto. Qed.

Section ShapeFacts.

Context {I Sig : Type} `{SpinGroup I Sig}.

Lemma adc_loop_alike (grad : list (list Q)) (dt : Q) (num : nat) (qs : list nat) :
  forall v isc1 isc2 acc1 acc2,
    length acc1 = length acc2 ->
    same_outcome alike_1D (adc_loop grad dt num qs v isc1 acc1)
                          (adc_loop grad dt num qs v isc2 acc2).
Proof.
  induction qs as [|q qs IH]; intros v isc1 isc2 acc1 acc2 Hacc.
  - exact Hacc.
  - cbn [adc_loop]. destruct (column grad v) as [g|e]; simpl; [|reflexivity].
    apply IH. destruct (Nat.leb v num); [|exact Hacc].
    rewrite !length_app. simpl. now rewrite Hacc.
Qed.

Lemma case_delay_alike (blk : Block) (isc1 isc2 : I) :
  same_outcome any (case_delay blk isc1) (case_delay blk isc2).
Proof.
  unfold case_delay. destruct (getitem (blk_delay blk)) as [d|e]; simpl; auto.
  destruct (index (delay_delay d) 0); simpl; auto. exact Logic.I.
Qed.

Lemma case_rf_alike (dt_rf : Q) (blk : Block) (isc1 isc2 : I) :
  same_outcome any (case_rf dt_rf blk isc1) (case_rf dt_rf blk isc2).
Proof.
  unfold case_rf. destruct (getitem (blk_rf blk)) as [rf|e]; simpl; auto.
  destruct (index (rf_t rf) 0) as [t0|e]; simpl; auto.
  destruct (combine_gradients _ _ _ _) as [[[g t] d]|e]; simpl; auto.
  exact Logic.I.
Qed.

Lemma case_grad_alike (dt_grad : Q) (blk : Block) (isc1 isc2 : I) :
  same_outcome any (case_grad dt_grad blk isc1) (case_grad dt_grad blk isc2).
Proof.
  unfold case_grad. destruct (combine_gradient_areas blk) as [a|e]; simpl; auto.
  destruct (find_precessing_time blk dt_grad); simpl; auto. exact Logic.I.
Qed.

Lemma case_adc_alike (blk : Block) (isc1 isc2 : I) :
  same_outcome alike_1D (case_adc blk isc1) (case_adc blk isc2).
Proof.
  unfold case_adc. destruct (getitem (blk_adc blk)) as [adc|e]; simpl; auto.
  destruct (combine_gradients _ _ _ _) as [[[g t] d]|e]; simpl; auto.
  destruct (column g 0) as [g0|e]; simpl; auto.
  now apply adc_loop_alike.
Qed.

Lemma apply_block_alike (dt_grad dt_rf : Q) (row : EventRow) (blk : Block)
      (isc1 isc2 : I) (sig1 sig2 : list (list Sig)) :
  shape sig1 = shape sig2 ->
  same_outcome alike (apply_block dt_grad dt_rf row blk isc1 sig1)
                     (apply_block dt_grad dt_rf row blk isc2 sig2).
Proof.
  intros Hs. unfold apply_block.
  destruct (nonzero (ev0 row)).
  { eapply same_outcome_bind; [apply case_delay_alike|]. intros; exact Hs. }
  destruct (nonzero (ev1 row)).
  { eapply same_outcome_bind; [apply case_rf_alike|]. intros; exact Hs. }
  destruct (nonzero (ev5 row)).
  { eapply same_outcome_bind; [apply case_adc_alike|].
    intros [i1 s1] [i2 s2] Hl. unfold alike, alike_1D, shape in *. simpl in *.
    rewrite !map_app. simpl. now rewrite Hs, Hl. }
  destruct (nonzero (ev2 row) || nonzero (ev3 row) || nonzero (ev4 row)).
  { eapply same_outcome_bind; [apply case_grad_alike|]. intros; exact Hs. }
  exact Hs.
Qed.

Lemma run_blocks_alike (seq : Sequence) (events : list (Z * EventRow)) :
  forall isc1 isc2 sig1 sig2,
    shape sig1 = shape sig2 ->
    same_outcome alike (run_blocks seq events isc1 sig1)
                       (run_blocks seq events isc2 sig2).
Proof.
  induction events as [|[key row] events IH]; intros isc1 isc2 sig1 sig2 Hs.
  - exact Hs.
  - cbn [run_blocks]. eapply same_outcome_bind.
    + apply apply_block_alike, Hs.
    + intros [i1 s1] [i2 s2] Hl. apply IH, Hl.
Qed.

Lemma apply_pulseq_alike (seq : Sequence) (isc1 isc2 : I) :
  same_outcome alike (apply_pulseq isc1 seq) (apply_pulseq isc2 seq).
Proof. apply run_blocks_alike. reflexivity. Qed.

End ShapeFacts.

Lemma sim_shape {I Sig : Type} `{SpinGroup I Sig} {Loc Params : Type}
      (new_SpinGroup : Loc -> Params -> Q -> I)
      (phantom1 phantom2 : Phantom Loc Params) (seq : Sequence)
      (loc1 loc2 : nat) (df1 df2 : Q) :
  result_shape (sim_single_spingroup new_SpinGroup loc1 df1 phantom1 seq)
  = result_shape (sim_single_spingroup new_SpinGroup loc2 df2 phantom2 seq).
Proof.
  unfold sim_single_spingroup.
  pose proof (apply_pulseq_alike seq
    (new_SpinGroup (get_location phantom1 loc1) (get_params phantom1 loc1) df1)
    (new_SpinGroup (get_location phantom2 loc2) (get_params phantom2 loc2) df2))
    as Ha.
  destruct (apply_pulseq _ seq) as [[i1 s1]|e1];
    destruct (apply_pulseq _ seq) as [[i2 s2]|e2];
    unfold same_outcome, alike in Ha; simpl in *;
    try contradiction; congruence.
Qed.

(** C8: for a fixed sequence, the simulations of any two locations (any
    position, PD, T1, T2 and off-resonance offset) end alike, and their
    signals have the same shape: as many ADC blocks, and as many samples
    in each. *)
Theorem signal_shape_independent_of_location
        {I Sig : Type} `{SpinGroup I Sig} {Loc Params : Type}
        (new_SpinGroup : Loc -> Params -> Q -> I)
        (phantom : Phantom Loc Params) (seq : Sequence)
        (loc1 loc2 : nat) (df1 df2 : Q) :
  result_shape (sim_single_spingroup new_SpinGroup loc1 df1 phantom seq)
  = result_shape (sim_single_spingroup new_SpinGroup loc2 df2 phantom seq)
  /\ forall signal1 signal2,
       sim_single_spingroup new_SpinGroup loc1 df1 phantom seq = Ok signal1 ->
       sim_single_spingroup new_SpinGroup loc2 df2 phantom seq = Ok signal2 ->
       length signal1 = length signal2
       /\ map (@length Sig) signal1 = map (@length Sig) signal2.
Proof.
  pose proof (sim_shape new_SpinGroup phantom phantom seq loc1 loc2 df1 df2) as E.
  split; [exact E|].
  intros s1 s2 E1 E2. rewrite E1, E2 in E. simpl in E.
  injection E as E. split; [|exact E].
  unfold shape in E. apply (f_equal (@length nat)) in E.
  now rewrite !length_map in E.
Qed.

Lemma signal_shape_independent_of_location_witness :
  exists signal1 signal2,
    sim_single_spingroup (H := Counter) new_Counter 0 0 line_phantom (adc_seq 3)
    = Ok signal1
    /\ sim_single_spingroup (H := Counter) new_Counter 2 (1 # 3) line_phantom (adc_seq 3)
       = Ok signal2
    /\ signal1 <> signal2
    /\ map (@length Z) signal1 = map (@length Z) signal2.
Proof.
  eexists _, _. split; [vm_compute; reflexivity|].
  split; [vm_compute; reflexivity|]. split; [discriminate|].
  apply (signal_shape_independent_of_location (H := Counter) new_Counter
           line_phantom (adc_seq 3) 0 2 0 (1 # 3)); vm_compute; reflexivity.
Defined.

(** ** Dispatch *)

Section DispatchFacts.

Context {I Sig : Type} `{SpinGroup I Sig}.

Lemma apply_block_run_kind (dt_grad dt_rf : Q) (row : EventRow) (blk : Block)
      (isc : I) (signal : list (list Sig)) :
  apply_block dt_grad dt_rf row blk isc signal
  = run_kind dt_grad dt_rf (dispatch row) blk isc signal.
Proof.
  unfold apply_block, dispatch.
  destruct (nonzero (ev0 row)); [reflexivity|].
  destruct (nonzero (ev1 row)); [reflexivity|].
  destruct (nonzero (ev5 row)); [reflexivity|].
  destruct (nonzero (ev2 row) || nonzero (ev3 row) || nonzero (ev4 row));
    reflexivity.
Qed.

Lemma run_blocks_app (seq : Sequence) (before after : list (Z * EventRow)) :
  forall (isc : I) (signal : list (list Sig)),
    run_blocks seq (before ++ after) isc signal
    = ('(isc, signal) <- run_blocks seq before isc signal ;;
       run_blocks seq after isc signal).
Proof.
  induction before as [|[key row] before IH]; intros isc signal.
  - reflexivity.
  - cbn [app run_blocks].
    destruct (apply_block _ _ row (get_block seq key) isc signal)
      as [[isc' signal']|e]; simpl; [apply IH|reflexivity].
Qed.

Lemma run_blocks_split (seq : Sequence) (before after : list (Z * EventRow))
      (key : Z) (row : EventRow) (isc : I) (signal : list (list Sig)) :
  run_blocks seq (before ++ (key, row) :: after) isc signal
  = ('(isc, signal) <- run_blocks seq before isc signal ;;
     '(isc, signal) <-
       run_kind (grad_raster_time seq) (rf_raster_time seq) (dispatch row)
                (get_block seq key) isc signal ;;
     run_blocks seq after isc signal).
Proof.
  rewrite run_blocks_app.
  destruct (run_blocks seq before isc signal) as [[isc' signal']|e];
    [|reflexivity].
  cbn [bind run_blocks]. now rewrite apply_block_run_kind.
Qed.

End DispatchFacts.

Lemma nonzero_true (z : Z) : nonzero z = true <-> z <> 0%Z.
Proof. unfold nonzero. rewrite negb_true_iff. apply Z.eqb_neq. Qed.

Lemma nonzero_false (z : Z) : nonzero z = false <-> z = 0%Z.
Proof. unfold nonzero. rewrite negb_false_iff. apply Z.eqb_eq. Qed.

Lemma dispatch_cases (row : EventRow) :
  (dispatch row = Some Delay <-> ev0 row <> 0%Z)
  /\ (dispatch row = Some Rf <-> ev0 row = 0%Z /\ ev1 row <> 0%Z)
  /\ (dispatch row = Some Adc
      <-> ev0 row = 0%Z /\ ev1 row = 0%Z /\ ev5 row <> 0%Z)
  /\ (dispatch row = Some GradOnly
      <-> ev0 row = 0%Z /\ ev1 row = 0%Z /\ ev5 row = 0%Z
          /\ (ev2 row <> 0%Z \/ ev3 row <> 0%Z \/ ev4 row <> 0%Z))
  /\ (dispatch row = None
      <-> ev0 row = 0%Z /\ ev1 row = 0%Z /\ ev5 row = 0%Z
          /\ ev2 row = 0%Z /\ ev3 row = 0%Z /\ ev4 row = 0%Z).
Proof.
  unfold dispatch.
  destruct (nonzero (ev0 row)) eqn:E0; [apply nonzero_true in E0|apply nonzero_false in E0];
  destruct (nonzero (ev1 row)) eqn:E1; [apply nonzero_true in E1|apply nonzero_false in E1| apply nonzero_true in E1|apply nonzero_false in E1];
  destruct (nonzero (ev5 row)) eqn:E5;
  try (apply nonzero_true in E5); try (apply nonzero_false in E5);
  destruct (nonzero (ev2 row)) eqn:E2;
  try (apply nonzero_true in E2); try (apply nonzero_false in E2);
  destruct (nonzero (ev3 row)) eqn:E3;
  try (apply nonzero_true in E3); try (apply nonzero_false in E3);
  destruct (nonzero (ev4 row)) eqn:E4;
  try (apply nonzero_true in E4); try (apply nonzero_false in E4);
  simpl; repeat split; intros; try discriminate; try tauto;
  intuition congruence.
Qed.

Lemma sorted_split (l1 l2 : list (Z * EventRow)) (key : Z) (row : EventRow) :
  StronglySorted Z.lt (map fst (l1 ++ (key, row) :: l2)) ->
  Forall (fun kr => (fst kr < key)%Z) l1
  /\ Forall (fun kr => (key < fst kr)%Z) l2.
Proof.
  induction l1 as [|[k r] l1 IH]; simpl; intros Hs.
  - split; [constructor|].
    apply StronglySorted_inv in Hs as [_ Hall].
    rewrite Forall_map in Hall. exact Hall.
  - apply StronglySorted_inv in Hs as [Hs Hall].
    destruct (IH Hs) as [H1 H2]. split; [|exact H2].
    constructor; [|exact H1].
    rewrite Forall_forall in Hall. apply Hall.
    rewrite map_app. apply in_or_app. right. now left.
Qed.

Lemma split_by_key (l1 l2 : list (Z * EventRow)) (key : Z) (row : EventRow) :
  StronglySorted Z.lt (map fst (l1 ++ (key, row) :: l2)) ->
  forall k r, In (k, r) (l1 ++ (key, row) :: l2) ->
              ((k < key)%Z <-> In (k, r) l1).
Proof.
  intros Hs k r Hin. destruct (sorted_split _ _ _ _ Hs) as [H1 H2].
  rewrite Forall_forall in H1, H2. split.
  - intros Hlt. apply in_app_or in Hin as [Hin|[Heq|Hin]]; [exact Hin| |].
    + injection Heq as -> ->. lia.
    + specialize (H2 _ Hin). simpl in H2. lia.
  - intros Hin1. exact (H1 _ Hin1).
Qed.

(** C2, as the code has it: at most one event kind is dispatched per
    block, the first in the order delay, RF, ADC, gradients only whose
    identifiers are not 0, and none when all six identifiers are 0; for
    every table, the blocks are handled one after the other in the
    iteration order of the table, each from the state and the signal
    left by the blocks before it in the table; these are the blocks of
    smaller key exactly when the keys of the table are increasing. *)
Theorem dispatch_by_priority
        {I Sig : Type} `{SpinGroup I Sig}
        (seq : Sequence) (before after : list (Z * EventRow))
        (key : Z) (row : EventRow) :
  block_events seq = before ++ (key, row) :: after ->
  (forall dt_grad dt_rf r blk (isc : I) (signal : list (list Sig)),
      apply_block dt_grad dt_rf r blk isc signal
      = run_kind dt_grad dt_rf (dispatch r) blk isc signal)
  /\ (forall r,
         (dispatch r = Some Delay <-> ev0 r <> 0%Z)
         /\ (dispatch r = Some Rf <-> ev0 r = 0%Z /\ ev1 r <> 0%Z)
         /\ (dispatch r = Some Adc
             <-> ev0 r = 0%Z /\ ev1 r = 0%Z /\ ev5 r <> 0%Z)
         /\ (dispatch r = Some GradOnly
             <-> ev0 r = 0%Z /\ ev1 r = 0%Z /\ ev5 r = 0%Z
                 /\ (ev2 r <> 0%Z \/ ev3 r <> 0%Z \/ ev4 r <> 0%Z))
         /\ (dispatch r = None
             <-> ev0 r = 0%Z /\ ev1 r = 0%Z /\ ev5 r = 0%Z
                 /\ ev2 r = 0%Z /\ ev3 r = 0%Z /\ ev4 r = 0%Z))
  /\ (forall isc : I,
         apply_pulseq isc seq
         = ('(isc, signal) <- run_blocks seq before isc [] ;;
            '(isc, signal) <-
              run_kind (grad_raster_time seq) (rf_raster_time seq)
                       (dispatch row) (get_block seq key) isc signal ;;
            run_blocks seq after isc signal))
  /\ (StronglySorted Z.lt (map fst (block_events seq)) ->
      forall k r, In (k, r) (block_events seq) ->
                  ((k < key)%Z <-> In (k, r) before)).
Proof.
  intros Hev. split; [|split; [|split]].
  - intros. apply apply_block_run_kind.
  - apply dispatch_cases.
  - intros isc. unfold apply_pulseq. rewrite Hev. apply run_blocks_split.
  - rewrite Hev. apply split_by_key.
Qed.

Lemma dispatch_by_priority_witness :
  dispatch delay_grad_row = Some Delay
  /\ apply_pulseq (@nil Call) unsorted_seq
     = ('(isc, signal) <-
          run_kind (1 # 100000) (1 # 1000000) (Some Delay) delay_grad_blk
                   (@nil Call) [] ;;
        run_blocks unsorted_seq [(1%Z, grad_row_ev)] isc signal)
  /\ apply_pulseq (@nil Call) (adc_seq 3)
     = ('(isc, signal) <- run_blocks (adc_seq 3) [(1%Z, grad_row_ev)] [] [] ;;
        '(isc, signal) <-
          run_kind (1 # 100000) (1 # 1000000) (Some Adc) (adc_blk 3)
                   isc signal ;;
        Ok (isc, signal))
  /\ ((1 < 2)%Z <-> In (1%Z, grad_row_ev) [(1%Z, grad_row_ev)]).
Proof.
  destruct (dispatch_by_priority (H := Recorder) unsorted_seq
              [] [(1%Z, grad_row_ev)] 2%Z delay_grad_row eq_refl)
    as (_ & Hd & Hrun & _).
  destruct (dispatch_by_priority (H := Recorder) (adc_seq 3)
              [(1%Z, grad_row_ev)] [] 2%Z grad_adc_row eq_refl)
    as (_ & _ & Hrun' & Hkeys).
  split; [apply Hd; discriminate|].
  split; [exact (Hrun [])|]. split; [exact (Hrun' [])|].
  apply Hkeys; [repeat constructor|simpl; auto].
Defined.

(** C2 fails twice.  On a block whose six event identifiers are all 0,
    no event kind is dispatched and the isochromat receives no call.  On
    a table that holds key 2 before key 1, the block of key 2 (a delay)
    is handled before the block of key 1 (a gradient), where ascending
    key order handles the gradient first. *)
Lemma empty_block_and_unsorted_table :
  (~ (exists k, dispatch zero_row = Some k)
   /\ apply_block (1 # 100000) (1 # 1000000) zero_row no_event
                  (@nil Call) (@nil (list nat))
      = Ok ([], []))
  /\ exists grad_call,
       map fst (block_events unsorted_seq) = [2; 1]%Z
       /\ apply_pulseq (@nil Call) unsorted_seq
          = Ok ([CallDelay 5; grad_call], [])
       /\ apply_pulseq (@nil Call) sorted_seq
          = Ok ([grad_call; CallDelay 5], [])
       /\ grad_call <> CallDelay 5.
Proof.
  split.
  - split; [intros [k E]; discriminate E | reflexivity].
  - eexists. split; [reflexivity|]. split; [vm_compute; reflexivity|].
    split; [vm_compute; reflexivity|discriminate].
Qed.

(** ** Where [find_precessing_time] is defined *)

Lemma grad_times_no_gradient (blk : Block) (dt : Q) :
  no_gradient blk <-> grad_times blk dt axes = [].
Proof.
  unfold no_gradient, axes. cbn [grad_times blk_grad].
  destruct (blk_gx blk), (blk_gy blk), (blk_gz blk);
    split; intros Hn; try discriminate; try reflexivity;
    try (destruct Hn as (? & ? & ?); discriminate); auto.
Qed.

Lemma find_precessing_time_undefined (blk : Block) (dt : Q) :
  no_gradient blk <-> find_precessing_time blk dt = Raise ValueError.
Proof.
  rewrite (grad_times_no_gradient blk dt). unfold find_precessing_time, Np.max.
  destruct (grad_times blk dt axes); split; intros E;
    try reflexivity; discriminate.
Qed.

Lemma find_precessing_time_defined (blk : Block) (dt : Q) :
  ~ no_gradient blk -> exists d, find_precessing_time blk dt = Ok d.
Proof.
  rewrite (grad_times_no_gradient blk dt). unfold find_precessing_time, Np.max.
  destruct (grad_times blk dt axes); intros Hn; [congruence|eauto].
Qed.

Lemma guard_excludes_no_gradient (row : EventRow) (blk : Block) :
  dispatch row = Some GradOnly -> gradients_populated row blk ->
  ~ no_gradient blk.
Proof.
  intros Hd (Hx & Hy & Hz) (Nx & Ny & Nz).
  destruct (dispatch_cases row) as (_ & _ & _ & [Hg _] & _).
  destruct (Hg Hd) as (_ & _ & _ & [E|[E|E]]);
    [exact (Hx E Nx)|exact (Hy E Ny)|exact (Hz E Nz)].
Qed.

Lemma case_adc_no_gradient {I Sig : Type} `{SpinGroup I Sig}
      (blk : Block) (isc : I) :
  no_gradient blk -> exists e, case_adc blk isc = Raise e.
Proof.
  intros Hn. unfold case_adc.
  destruct (blk_adc blk) as [adc|]; simpl; [|eauto].
  unfold combine_gradients, grad_timing_of.
  destruct (Qeq_bool (adc_dwell adc) 0); simpl.
  - unfold grad_row. destruct Hn as (Nx & Ny & Nz).
    simpl. rewrite Nx, Ny, Nz. simpl. eauto.
  - apply (find_precessing_time_undefined blk (adc_dwell adc)) in Hn.
    rewrite Hn. simpl. eauto.
Qed.

(** C10: [find_precessing_time] raises exactly on a block without a
    gradient on any axis; a block dispatched as gradients only has one,
    by the guard of that branch; an ADC block need not, and applying a
    sequence that holds an ADC block without any gradient fails, on
    every isochromat. *)
Theorem adc_without_gradient_fails
        {I Sig : Type} `{SpinGroup I Sig}
        (seq : Sequence) (before after : list (Z * EventRow))
        (key : Z) (row : EventRow) (isc : I) :
  block_events seq = before ++ (key, row) :: after ->
  dispatch row = Some Adc ->
  no_gradient (get_block seq key) ->
  (forall blk dt,
      no_gradient blk <-> find_precessing_time blk dt = Raise ValueError)
  /\ (forall blk dt,
         ~ no_gradient blk -> exists d, find_precessing_time blk dt = Ok d)
  /\ (forall r blk dt,
         dispatch r = Some GradOnly -> gradients_populated r blk ->
         exists d, find_precessing_time blk dt = Ok d)
  /\ exists e, apply_pulseq isc seq = Raise e.
Proof.
  intros Hev Hd Hn. split; [|split; [|split]].
  - apply find_precessing_time_undefined.
  - apply find_precessing_time_defined.
  - intros r blk dt Hr Hp. apply find_precessing_time_defined.
    eapply guard_excludes_no_gradient; eauto.
  - unfold apply_pulseq. rewrite Hev, run_blocks_split, Hd.
    destruct (run_blocks seq before isc []) as [[isc' signal']|e];
      simpl; [|eauto].
    destruct (case_adc_no_gradient (get_block seq key) isc' Hn) as [e ->].
    simpl. eauto.
Qed.

Lemma adc_without_gradient_fails_witness :
  find_precessing_time adc_only (1 # 2) = Raise ValueError
  /\ apply_pulseq (@nil Call) adc_only_seq = Raise ValueError.
Proof.
  destruct (adc_without_gradient_fails (H := Recorder) adc_only_seq [] []
              1%Z adc_row [] eq_refl eq_refl)
    as (Hu & _ & _ & e & He).
  - repeat split.
  - split.
    + apply Hu. repeat split.
    + reflexivity.
Defined.

(** ** The RF block *)







(** ** The longest axis *)











(** ** The trapezoid *)

Lemma Qle_bool_false (x y : Q) : Qle_bool x y = false -> y < x.
Proof.
  intros E. apply Qnot_le_lt. intros Hle.
  apply Qle_bool_iff in Hle. congruence.
Qed.

Lemma Qeq_bool_false (x y : Q) : Qeq_bool x y = false -> ~ x == y.
Proof. intros E Heq. apply Qeq_bool_iff in Heq. congruence. Qed.

(** [np.interp] against the four control points of a trapezoid with
    times that are not negative is the trapezoid of the spec. *)
Lemma interp1_trap (g : Trapezoid) (t : Q) :
  0 <= rise_time g -> 0 <= flat_time g -> 0 <= fall_time g ->
  Np.interp1 (combine (g_time (Trap g)) (g_shape (Trap g))) t == trap_wave g t.
Proof.
  intros Hr Hf Hfl. unfold trap_wave. cbn [g_time g_shape combine Np.interp1 last].
  generalize (amplitude g / GAMMA_BAR) as p.
  generalize dependent (fall_time g). generalize dependent (flat_time g).
  generalize dependent (rise_time g). intros r Hr f Hf fl Hfl p.
  cbn [Np.interp_from].
  destruct (Qlt_le_dec (r + f + fl) t) as [H1|H1].
  { destruct (Qlt_le_dec t 0); [reflexivity|].
    destruct (Qlt_le_dec t r); [lra|].
    destruct (Qlt_le_dec t (r + f)); [lra|].
    destruct (Qlt_le_dec t (r + f + fl)); [lra|reflexivity]. }
  destruct (Qlt_le_dec t 0) as [H2|H2]; [reflexivity|].
  destruct (Qle_bool r t) eqn:E1.
  - apply Qle_bool_iff in E1.
    destruct (Qlt_le_dec t r) as [H3|H3]; [lra|].
    destruct (Qle_bool (r + f) t) eqn:E2.
    + apply Qle_bool_iff in E2.
      destruct (Qlt_le_dec t (r + f)) as [H4|H4]; [lra|].
      destruct (Qle_bool (r + f + fl) t) eqn:E3.
      * apply Qle_bool_iff in E3.
        destruct (Qlt_le_dec t (r + f + fl)) as [H5|H5]; [lra|reflexivity].
      * apply Qle_bool_false in E3.
        destruct (Qlt_le_dec t (r + f + fl)) as [H5|H5]; [|lra].
        destruct (Qeq_bool (r + f) t) eqn:E4.
        -- apply Qeq_bool_iff in E4. rewrite <- E4. field. lra.
        -- field. lra.
    + apply Qle_bool_false in E2.
      destruct (Qlt_le_dec t (r + f)) as [H4|H4]; [|lra].
      destruct (Qeq_bool r t) eqn:E4; [reflexivity|].
      field. lra.
  - apply Qle_bool_false in E1.
    destruct (Qlt_le_dec t r) as [H3|H3]; [|lra].
    destruct (Qeq_bool 0 t) eqn:E4.
    + apply Qeq_bool_iff in E4. rewrite <- E4. field. lra.
    + field. lra.
Qed.


Lemma combine_gradients_axis (blk : Block) (dt : Q) (tm : list Q) (delay : Q)
      (grad : list (list Q)) (timing : list Q) (duration : Q) (a : axis) :
  combine_gradients blk dt tm delay = Ok (grad, timing, duration) ->
  exists row, nth_error grad (axis_index a) = Some row
              /\ grad_row blk timing a = Ok row.
Proof.
  intros Hcg.
  destruct (combine_gradients_rows _ _ _ _ _ _ _ Hcg) as (_ & Hm & _).
  unfold axes in Hm. cbn [mapM] in Hm.
  apply bind_ok in Hm as (r0 & E0 & Hm). apply bind_ok in Hm as (rs & Hm & E).
  apply bind_ok in Hm as (r1 & E1 & Hm). apply bind_ok in Hm as (rs' & Hm & E').
  apply bind_ok in Hm as (r2 & E2 & Hm). simpl in Hm.
  injection Hm as <-. injection E' as <-. injection E as <-.
  destruct a; simpl; eauto.
Qed.






(** ** The area under the reconstructed trapezoid *)

(** Replace in the goal what the hypotheses pin to a control point. *)
Ltac pin x y :=
  try (let E := fresh "E" in assert (E : x == y) by lra; rewrite !E).

(** The trapezoidal rule is exact between two grid points that no
    control point separates. *)
Lemma trapz_segment (g : Trapezoid) (a b : Q) :
  0 <= rise_time g -> 0 <= flat_time g -> 0 < fall_time g ->
  0 < rise_time g \/ 0 <= a ->
  a <= b ->
  (0 <= a \/ b <= 0) ->
  (rise_time g <= a \/ b <= rise_time g) ->
  (rise_time g + flat_time g <= a \/ b <= rise_time g + flat_time g) ->
  (rise_time g + flat_time g + fall_time g <= a
   \/ b <= rise_time g + flat_time g + fall_time g) ->
  (b - a) * (trap_wave g b + trap_wave g a) / 2
  == trap_integral g b - trap_integral g a.
Proof.
  unfold trap_wave, trap_integral.
  generalize (amplitude g / GAMMA_BAR) as p.
  generalize (fall_time g) as fl. generalize (flat_time g) as f.
  generalize (rise_time g) as r. intros r f fl p Hr Hf Hfl H0 Hab S0 S1 S2 S3.
  destruct (Qlt_le_dec b 0); destruct (Qlt_le_dec b r);
    destruct (Qlt_le_dec b (r + f)); destruct (Qlt_le_dec b (r + f + fl));
    destruct (Qlt_le_dec a 0); destruct (Qlt_le_dec a r);
    destruct (Qlt_le_dec a (r + f)); destruct (Qlt_le_dec a (r + f + fl));
    try (exfalso; lra);
    pin f 0; pin r 0;
    pin b 0; pin b r; pin b (r + f); pin b (r + f + fl);
    pin a 0; pin a r; pin a (r + f); pin a (r + f + fl);
    try (field; lra); try (field; split; lra).
Qed.

Lemma trap_integral_left (g : Trapezoid) (t : Q) :
  0 <= rise_time g -> 0 <= flat_time g -> 0 < fall_time g ->
  0 < rise_time g \/ 0 <= t ->
  t <= 0 -> trap_integral g t == 0.
Proof.
  unfold trap_integral.
  generalize (amplitude g / GAMMA_BAR) as p.
  generalize (fall_time g) as fl. generalize (flat_time g) as f.
  generalize (rise_time g) as r. intros r f fl p Hr Hf Hfl H0 Ht.
  destruct (Qlt_le_dec t 0); destruct (Qlt_le_dec t r);
    destruct (Qlt_le_dec t (r + f)); destruct (Qlt_le_dec t (r + f + fl));
    try (exfalso; lra);
    pin f 0; pin r 0; pin t 0;
    try reflexivity; try (field; lra).
Qed.

Lemma trap_integral_right (g : Trapezoid) (t : Q) :
  0 <= rise_time g -> 0 <= flat_time g -> 0 < fall_time g ->
  rise_time g + flat_time g + fall_time g <= t ->
  trap_integral g t == analytic_area g.
Proof.
  unfold trap_integral, analytic_area.
  generalize (amplitude g / GAMMA_BAR) as p.
  generalize (fall_time g) as fl. generalize (flat_time g) as f.
  generalize (rise_time g) as r. intros r f fl p Hr Hf Hfl Ht.
  destruct (Qlt_le_dec t 0); destruct (Qlt_le_dec t r);
    destruct (Qlt_le_dec t (r + f)); destruct (Qlt_le_dec t (r + f + fl));
    try (exfalso; lra).
  field.
Qed.

Lemma sorted_head_le (a x : Q) (l : list Q) :
  StronglySorted Qle (a :: l) -> In x (a :: l) -> a <= x.
Proof.
  intros Hs [<-|Hin]; [apply Qle_refl|].
  apply StronglySorted_inv in Hs as [_ Hall].
  rewrite Forall_forall in Hall. now apply Hall.
Qed.

Lemma last_cons (b a : Q) (l : list Q) : last (b :: l) a = last l b.
Proof.
  revert a b. induction l as [|c l IH]; intros a b; [reflexivity|].
  change (last (b :: c :: l) a) with (last (c :: l) a).
  rewrite IH. symmetry. apply IH.
Qed.

(** Over a sorted grid that holds the control points still ahead, the
    trapezoidal rule gives the integral between its ends. *)
Lemma trapz_telescope (g : Trapezoid) (cs : list Q) :
  0 <= rise_time g -> 0 <= flat_time g -> 0 < fall_time g ->
  cs = [0; rise_time g; rise_time g + flat_time g;
        rise_time g + flat_time g + fall_time g] ->
  forall l a,
    StronglySorted Qle (a :: l) ->
    (forall c, In c cs -> c <= a \/ on_grid (a :: l) c) ->
    0 < rise_time g \/ 0 <= a ->
    Np.trapz_pts (combine (a :: l) (map (trap_wave g) (a :: l)))
    == trap_integral g (last l a) - trap_integral g a.
Proof.
  intros Hr Hf Hfl Hcs.
  induction l as [|b l IH]; intros a Hs Hc H0.
  - simpl. ring.
  - assert (Hab : a <= b) by (apply (sorted_head_le a b (b :: l) Hs); simpl; auto).
    assert (Hs' : StronglySorted Qle (b :: l))
      by (apply StronglySorted_inv in Hs; tauto).
    assert (Hsep : forall c, In c cs -> c <= a \/ b <= c).
    { intros c Hin. destruct (Hc c Hin) as [Hle|(x & [<-|Hx] & Ex)].
      - now left.
      - left. rewrite <- Ex. apply Qle_refl.
      - right. rewrite <- Ex. now apply (sorted_head_le b x l). }
    assert (Hc' : forall c, In c cs -> c <= b \/ on_grid (b :: l) c).
    { intros c Hin. destruct (Hc c Hin) as [Hle|(x & [<-|Hx] & Ex)].
      - left. now apply Qle_trans with a.
      - left. now rewrite <- Ex.
      - right. now exists x. }
    assert (H0' : 0 < rise_time g \/ 0 <= b).
    { destruct H0; [now left|right]. now apply Qle_trans with a. }
    specialize (IH b Hs' Hc' H0').
    change (Np.trapz_pts (combine (a :: b :: l) (map (trap_wave g) (a :: b :: l))))
      with ((b - a) * (trap_wave g b + trap_wave g a) / 2
            + Np.trapz_pts (combine (b :: l) (map (trap_wave g) (b :: l)))).
    rewrite IH.
    rewrite (trapz_segment g a b Hr Hf Hfl H0 Hab).
    + rewrite last_cons. ring.
    + destruct (Hsep 0) as [Hx|Hx]; [subst cs; simpl; auto| |]; auto.
    + destruct (Hsep (rise_time g)) as [Hx|Hx]; [subst cs; simpl; auto| |]; auto.
    + destruct (Hsep (rise_time g + flat_time g)) as [Hx|Hx];
        [subst cs; simpl; auto| |]; auto.
    + destruct (Hsep (rise_time g + flat_time g + fall_time g)) as [Hx|Hx];
        [subst cs; simpl; auto 6| |]; auto.
Qed.

Lemma trapz_pts_ext (f h : Q -> Q) (l : list Q) :
  (forall t, f t == h t) ->
  Np.trapz_pts (combine l (map f l)) == Np.trapz_pts (combine l (map h l)).
Proof.
  intros E. induction l as [|a l IH]; [reflexivity|].
  destruct l as [|b l]; [reflexivity|].
  change (Np.trapz_pts (combine (a :: b :: l) (map f (a :: b :: l))))
    with ((b - a) * (f b + f a) / 2
          + Np.trapz_pts (combine (b :: l) (map f (b :: l)))).
  change (Np.trapz_pts (combine (a :: b :: l) (map h (a :: b :: l))))
    with ((b - a) * (h b + h a) / 2
          + Np.trapz_pts (combine (b :: l) (map h (b :: l)))).
  now rewrite IH, (E a), (E b).
Qed.

Lemma sorted_le_last (l : list Q) :
  forall a x, StronglySorted Qle (a :: l) -> In x (a :: l) -> x <= last l a.
Proof.
  induction l as [|b l IH]; intros a x Hs Hin.
  - destruct Hin as [<-|[]]. apply Qle_refl.
  - rewrite last_cons.
    assert (Hs' : StronglySorted Qle (b :: l))
      by (apply StronglySorted_inv in Hs; tauto).
    destruct Hin as [<-|Hin]; [|now apply IH].
    apply Qle_trans with b.
    + apply (sorted_head_le a b (b :: l) Hs). simpl; auto.
    + apply IH; [exact Hs'|now left].
Qed.

(** C6, as the code has it: for a trapezoid axis with rise and flat
    times that are not negative and a positive fall time, over a sorted
    timing grid that holds the four control points (and no point before
    time 0 when the rise time is 0), the trapezoidal-rule integral of the
    reconstructed row is the analytic area, half of (flat time + total
    duration) times the plateau, in exact arithmetic. *)
Theorem reconstructed_trapezoid_area
        (blk : Block) (a : axis) (g : Trapezoid) (dt : Q) (tm : list Q)
        (delay : Q) (grad : list (list Q)) (timing : list Q) (duration : Q) :
  blk_grad blk a = Some (Trap g) ->
  combine_gradients blk dt tm delay = Ok (grad, timing, duration) ->
  0 <= rise_time g -> 0 <= flat_time g -> 0 < fall_time g ->
  0 < rise_time g \/ Forall (fun t => 0 <= t) timing ->
  StronglySorted Qle timing ->
  on_grid timing 0 ->
  on_grid timing (rise_time g) ->
  on_grid timing (rise_time g + flat_time g) ->
  on_grid timing (rise_time g + flat_time g + fall_time g) ->
  exists row area,
    nth_error grad (axis_index a) = Some row
    /\ Np.trapz row timing = Ok area
    /\ area == analytic_area g.
Proof.
  intros Ha Hcg Hr Hf Hfl H0 Hs G0 G1 G2 G3.
  destruct (combine_gradients_axis _ _ _ _ _ _ _ a Hcg) as (row & Hn & Hrow).
  unfold grad_row in Hrow. rewrite Ha in Hrow. simpl in Hrow.
  injection Hrow as <-.
  eexists _, _. split; [exact Hn|]. unfold Np.trapz.
  rewrite length_map, Nat.eqb_refl. split; [reflexivity|].
  rewrite (trapz_pts_ext _ (trap_wave g) timing).
  2:{ intros t. apply (interp1_trap g t); auto. now apply Qlt_le_weak. }
  destruct timing as [|a0 l].
  { destruct G0 as (x & [] & _). }
  rewrite (trapz_telescope g _ Hr Hf Hfl eq_refl l a0 Hs).
  - rewrite trap_integral_right; auto.
    + rewrite trap_integral_left; auto.
      * ring.
      * destruct H0 as [H0|H0]; [now left|right]. now inversion H0.
      * destruct G0 as (x & Hx & Ex). rewrite <- Ex.
        now apply (sorted_head_le a0 x l).
    + destruct G3 as (x & Hx & Ex). rewrite <- Ex.
      now apply sorted_le_last.
  - intros c [<-|[<-|[<-|[<-|[]]]]]; right; assumption.
  - destruct H0 as [H0|H0]; [now left|right]. now inversion H0.
Qed.

Lemma reconstructed_trapezoid_area_witness :
  exists grad timing duration row area,
    combine_gradients grad_blk 0 [0; 1 # 2; 1; 2; 5 # 2; 3; 4] 0
    = Ok (grad, timing, duration)
    /\ nth_error grad 0 = Some row
    /\ Np.trapz row timing = Ok area
    /\ area == analytic_area trap1.
Proof.
  destruct (reconstructed_trapezoid_area
              grad_blk gx trap1 0 [0; 1 # 2; 1; 2; 5 # 2; 3; 4] 0
              (map (fun a => map (grad_value grad_blk a)
                                 [0; 1 # 2; 1; 2; 5 # 2; 3; 4]) axes)
              [0; 1 # 2; 1; 2; 5 # 2; 3; 4] 4 eq_refl)
    as (row & ar & Hn & Ht & Har).
  - vm_compute. reflexivity.
  - discriminate.
  - discriminate.
  - reflexivity.
  - left. reflexivity.
  - repeat constructor; discriminate.
  - exists 0. split; [simpl; auto|reflexivity].
  - exists 1. split; [simpl; auto|reflexivity].
  - exists 2. split; [simpl; auto|reflexivity].
  - exists 3. split; [simpl; auto 7|reflexivity].
  - eexists _, _, _, row, ar. split; [vm_compute; reflexivity|].
    split; [exact Hn|]. split; [exact Ht|exact Har].
Defined.

(** C6 fails on a trapezoid without fall time (rise 1, flat 1, fall 0,
    plateau 1) over the grid 0, 1, 2 of its control points: the
    reconstructed row is 0, 1, 0, of integral 1, and the analytic area
    is 3/2. *)
Lemma trapezoid_without_fall_loses_area :
  exists grad timing duration row area,
    combine_gradients no_fall_blk 0 [0; 1; 2] 0 = Ok (grad, timing, duration)
    /\ (on_grid timing 0 /\ on_grid timing 1 /\ on_grid timing (1 + 1)
        /\ on_grid timing (1 + 1 + 0))
    /\ nth_error grad 0 = Some row
    /\ Np.trapz row timing = Ok area
    /\ area == 1
    /\ analytic_area trap_no_fall == 3 # 2
    /\ ~ area == analytic_area trap_no_fall.
Proof.
  eexists _, _, _, _, _. split; [vm_compute; reflexivity|]. split.
  { repeat split.
    - exists 0. split; [simpl; auto|reflexivity].
    - exists 1. split; [simpl; auto|reflexivity].
    - exists 2. split; [simpl; auto|reflexivity].
    - exists 2. split; [simpl; auto|reflexivity]. }
  split; [reflexivity|]. split; [vm_compute; reflexivity|].
  split; [reflexivity|]. split; [reflexivity|]. discriminate.
Qed.

(** ** The sum over the locations *)


Lemma mapM_perm {A B : Type} (f : A -> result B) (l l' : list A) :
  Permutation l l' ->
  forall rs', mapM f l' = Ok rs' ->
              exists rs, mapM f l = Ok rs /\ Permutation rs rs'.
Proof.
  induction 1 as [|x l l' Hp IH|x y l|l l' l'' Hp1 IH1 Hp2 IH2]; intros rs' E.
  - exists []. split; [reflexivity|]. simpl in E. injection E as <-. constructor.
  - simpl in E. apply bind_ok in E as (b & Eb & E).
    apply bind_ok in E as (bs & Ebs & E). injection E as <-.
    destruct (IH bs Ebs) as (rs & Ers & Hperm).
    exists (b :: rs). simpl. rewrite Eb, Ers. simpl. auto.
  - simpl in E. apply bind_ok in E as (bx & Ex & E).
    apply bind_ok in E as (bs & E' & E). injection E as <-.
    apply bind_ok in E' as (by' & Ey & E'). apply bind_ok in E' as (bl & El & E').
    injection E' as <-.
    exists (by' :: bx :: bl). simpl. rewrite Ey, Ex, El. simpl.
    split; [reflexivity|constructor].
  - destruct (IH2 rs' E) as (rs2 & E2 & Hp2').
    destruct (IH1 rs2 E2) as (rs1 & E1 & Hp1').
    exists rs1. split; [exact E1|]. now apply Permutation_trans with rs2.
Qed.

Section Map2.

Context {A : Type} (f : A -> A -> A).
Hypothesis f_assoc : forall a b c, f (f a b) c = f a (f b c).
Hypothesis f_comm : forall a b, f a b = f b a.

Lemma map2_assoc (a b c : list A) :
  map2 f (map2 f a b) c = map2 f a (map2 f b c).
Proof.
  unfold map2. revert b c. induction a as [|x a IH]; intros [|y b] [|z c];
    simpl; try reflexivity.
  f_equal; [apply f_assoc|apply IH].
Qed.

Lemma map2_comm (a b : list A) : map2 f a b = map2 f b a.
Proof.
  unfold map2. revert b. induction a as [|x a IH]; intros [|y b];
    simpl; try reflexivity.
  f_equal; [apply f_comm|apply IH].
Qed.

Lemma sum_opt_perm (l l' : list A) :
  Permutation l l' -> sum_opt f l = sum_opt f l'.
Proof.
  induction 1 as [|x l l' Hp IH|x y l|l l' l'' Hp1 IH1 Hp2 IH2]; simpl.
  - reflexivity.
  - now rewrite IH.
  - destruct (sum_opt f l) as [s|].
    + f_equal. rewrite <- !f_assoc. f_equal. apply f_comm.
    + f_equal. apply f_comm.
  - congruence.
Qed.

Lemma fold_left_sum_opt (l : list A) :
  forall a, fold_left f l a
            = match sum_opt f l with None => a | Some s => f a s end.
Proof.
  induction l as [|x l IH]; intros a; simpl; [reflexivity|].
  rewrite IH. destruct (sum_opt f l); [apply f_assoc|reflexivity].
Qed.

Lemma sum_opt_cons (a : A) (l : list A) :
  sum_opt f (a :: l) = Some (fold_left f l a).
Proof. simpl. rewrite fold_left_sum_opt. now destruct (sum_opt f l). Qed.


End Map2.

(** A list of signals stacks into one array when they share a
    rectangular shape. *)
Lemma homogeneous_spec {A : Type} (results : list (list (list A))) :
  homogeneous results = true
  <-> results = []
      \/ exists sh, rectangular sh = true
                    /\ Forall (fun m => shape m = sh) results.
Proof.
  unfold homogeneous, same_shape. destruct results as [|m0 rest].
  - split; auto.
  - rewrite andb_true_iff, forallb_forall. split.
    + intros [Hr Hall]. right. exists (shape m0). split; [exact Hr|].
      constructor; [reflexivity|]. apply Forall_forall. intros m Hm.
      specialize (Hall m Hm).
      now destruct (list_eq_dec Nat.eq_dec (shape m) (shape m0)).
    + intros [E|(sh & Hr & Hall)]; [discriminate|].
      inversion Hall as [|? ? E0 Hrest]; subst. split; [exact Hr|].
      intros m Hm. rewrite Forall_forall in Hrest. rewrite (Hrest m Hm).
      now destruct (list_eq_dec Nat.eq_dec (shape m0) (shape m0)).
Qed.

Lemma homogeneous_perm {A : Type} (rs rs' : list (list (list A))) :
  Permutation rs rs' -> homogeneous rs = true -> homogeneous rs' = true.
Proof.
  intros Hp Hh. apply homogeneous_spec. apply homogeneous_spec in Hh.
  destruct Hh as [->|(sh & Hr & Hall)].
  - left. now apply Permutation_nil.
  - right. exists sh. split; [exact Hr|].
    eapply Permutation_Forall; eauto.
Qed.


Section EnsembleFacts.

Context {I Sig : Type} `{SpinGroup I Sig}.
Context {Loc Params : Type}.

Variable new_SpinGroup : Loc -> Params -> Q -> I.
Variable sig_add : Sig -> Sig -> Sig.
Variable sig_zero : Sig.

Hypothesis sig_add_assoc :
  forall a b c, sig_add (sig_add a b) c = sig_add a (sig_add b c).
Hypothesis sig_add_comm : forall a b, sig_add a b = sig_add b a.
Hypothesis sig_add_zero : forall a, sig_add sig_zero a = a.

Lemma mat_add_assoc (a b c : list (list Sig)) :
  mat_add sig_add (mat_add sig_add a b) c
  = mat_add sig_add a (mat_add sig_add b c).
Proof.
  unfold mat_add. apply map2_assoc. intros x y z.
  now apply map2_assoc.
Qed.

Lemma mat_add_comm (a b : list (list Sig)) :
  mat_add sig_add a b = mat_add sig_add b a.
Proof.
  unfold mat_add. apply map2_comm. intros x y. now apply map2_comm.
Qed.



Lemma np_sum_axis0_spec (rs : list (list (list Sig))) :
  homogeneous rs = true ->
  np_sum_axis0 sig_add sig_zero rs
  = Ok (match sum_opt (mat_add sig_add) rs with
        | None => Scalar sig_zero
        | Some s => Matrix s
        end).
Proof.
  intros Hh. unfold np_sum_axis0. rewrite Hh. destruct rs as [|m0 rest].
  - reflexivity.
  - rewrite (sum_opt_cons _ mat_add_assoc). reflexivity.
Qed.

Lemma np_sum_axis0_ok (rs : list (list (list Sig))) (e : ndarray Sig) :
  np_sum_axis0 sig_add sig_zero rs = Ok e -> homogeneous rs = true.
Proof.
  unfold np_sum_axis0. destruct (homogeneous rs); [reflexivity|discriminate].
Qed.




End EnsembleFacts.


(** * Further properties of the code *)

(** ** The gradient array and the timing grid *)

(** X1: the gradient array returned by [combine_gradients] has three
    rows, each as long as the timing grid, and the row of an axis absent
    from the block is all zeros. *)
Theorem combine_gradients_shape
        (blk : Block) (dt : Q) (tm : list Q) (delay : Q)
        (grad : list (list Q)) (timing : list Q) (duration : Q) :
  combine_gradients blk dt tm delay = Ok (grad, timing, duration) ->
  length grad = 3%nat
  /\ Forall (fun row => length row = length timing) grad
  /\ forall a, blk_grad blk a = None ->
               nth_error grad (axis_index a)
               = Some (repeat 0 (length timing)).
Proof.
  intros Hcg.
  destruct (combine_gradients_rows _ _ _ _ _ _ _ Hcg) as (_ & Hm & Hrows).
  split; [exact (mapM_length _ _ _ Hm)|]. split; [exact Hrows|].
  intros a Ha.
  destruct (combine_gradients_axis _ _ _ _ _ _ _ a Hcg) as (row & Hn & Hrow).
  unfold grad_row in Hrow. rewrite Ha in Hrow. injection Hrow as <-.
  exact Hn.
Qed.

Lemma combine_gradients_shape_witness :
  exists grad timing duration,
    combine_gradients (adc_blk 3) (1 # 2) [] (1 # 2) = Ok (grad, timing, duration)
    /\ length grad = 3%nat
    /\ nth_error grad 2 = Some (repeat 0 (length timing)).
Proof.
  eexists _, _, _. split; [vm_compute; reflexivity|].
  destruct (combine_gradients_shape (adc_blk 3) (1 # 2) [] (1 # 2) _ _ _ eq_refl)
    as (H3 & _ & Hz).
  split; [exact H3|]. exact (Hz gz eq_refl).
Defined.



Lemma arange_nth (start stop step : Q) (i : nat) :
  (i < length (Np.arange start stop step))%nat ->
  nth i (Np.arange start stop step) 0 = start + inject_Z (Z.of_nat i) * step.
Proof.
  unfold Np.arange. rewrite length_map, length_seq. intros Hi.
  rewrite (nth_indep _ 0 (start + inject_Z (Z.of_nat 0) * step))
    by now rewrite length_map, length_seq.
  rewrite (map_nth (fun i => start + inject_Z (Z.of_nat i) * step)).
  now rewrite seq_nth.
Qed.

Lemma below_ceiling (q : Q) (i : nat) :
  (i < Z.to_nat (Qceiling q))%nat -> inject_Z (Z.of_nat i) < q.
Proof.
  intros Hi. apply Qle_lt_trans with (inject_Z (Qceiling q - 1)).
  - rewrite <- Zle_Qle. lia.
  - apply Qceiling_lt.
Qed.

Lemma ceiling_covers (q : Q) : q <= inject_Z (Z.of_nat (Z.to_nat (Qceiling q))).
Proof.
  apply Qle_trans with (inject_Z (Qceiling q)).
  - apply Qle_ceiling.
  - rewrite <- Zle_Qle. lia.
Qed.

Lemma arange_bounds (start stop step : Q) :
  0 < step ->
  (forall i, (i < length (Np.arange start stop step))%nat ->
             start + inject_Z (Z.of_nat i) * step < stop)
  /\ stop <= start
             + inject_Z (Z.of_nat (length (Np.arange start stop step))) * step.
Proof.
  intros Hstep.
  assert (E : (stop - start) / step * step == stop - start) by (field; lra).
  rewrite arange_length. split.
  - intros i Hi. apply below_ceiling in Hi.
    pose proof (Qmult_lt_compat_r _ _ step Hstep Hi) as Hm.
    rewrite E in Hm. lra.
  - pose proof (ceiling_covers ((stop - start) / step)) as Hc.
    pose proof (Qmult_le_compat_r _ _ step Hc (Qlt_le_weak _ _ Hstep)) as Hm.
    rewrite E in Hm. lra.
Qed.

(** X3: in exact arithmetic (the grid of [np.arange] has
    [ceil((stop - start) / step)] points; in doubles its length can
    differ by one and its last point reach the end), with a positive
    raster step, the raster part of the timing grid (the whole grid
    without a delay, the grid after its leading 0 with one) holds the
    points start + i * dt that lie before the duration of the longest
    axis, and no fewer. *)
Theorem raster_grid_stops_before_duration
        (blk : Block) (dt : Q) (tm : list Q) (delay : Q)
        (grad : list (list Q)) (timing : list Q) (duration : Q) :
  0 < dt ->
  combine_gradients blk dt tm delay = Ok (grad, timing, duration) ->
  (Qeq_bool delay 0 = false -> hd_error timing = Some 0)
  /\ (forall i, (i < length (raster_part delay timing))%nat ->
        nth i (raster_part delay timing) 0
        = raster_start delay + inject_Z (Z.of_nat i) * dt
        /\ nth i (raster_part delay timing) 0 < duration)
  /\ duration
     <= raster_start delay
        + inject_Z (Z.of_nat (length (raster_part delay timing))) * dt.
Proof.
  intros Hdt Hcg.
  destruct (combine_gradients_rows _ _ _ _ _ _ _ Hcg) as (Ht & _ & _).
  unfold grad_timing_of in Ht.
  assert (Edt : Qeq_bool dt 0 = false).
  { destruct (Qeq_bool dt 0) eqn:E; [|reflexivity].
    apply Qeq_bool_iff in E. lra. }
  rewrite Edt in Ht. cbn [negb] in Ht.
  apply bind_ok in Ht as (d & Hd & Ht). injection Ht as <- <-.
  unfold raster_part, raster_start.
  destruct (Qeq_bool delay 0) eqn:Edelay; cbn [tl].
  - split; [discriminate|].
    destruct (arange_bounds 0 d dt Hdt) as [Hlt Hcov].
    split; [|exact Hcov]. intros i Hi. rewrite (arange_nth _ _ _ _ Hi).
    split; [reflexivity|]. now apply Hlt.
  - split; [reflexivity|].
    destruct (arange_bounds delay d dt Hdt) as [Hlt Hcov].
    split; [|exact Hcov]. intros i Hi. rewrite (arange_nth _ _ _ _ Hi).
    split; [reflexivity|]. now apply Hlt.
Qed.

Lemma raster_grid_stops_before_duration_witness :
  exists grad timing,
    combine_gradients (adc_blk 3) (1 # 2) [] (1 # 2) = Ok (grad, timing, 3)
    /\ nth 4 (tl timing) 0 < 3
    /\ 3 <= (1 # 2) + inject_Z (Z.of_nat (length (tl timing))) * (1 # 2).
Proof.
  eexists _, _. split; [vm_compute; reflexivity|].
  destruct (raster_grid_stops_before_duration
              (adc_blk 3) (1 # 2) [] (1 # 2) _ _ 3 eq_refl eq_refl)
    as (_ & Hn & Hc).
  split; [|exact Hc].
  apply (Hn 4%nat). vm_compute. lia.
Defined.

(** ** Edge cases of the ADC block *)






(** ** The signal grows by one list per ADC block *)

Section SignalFacts.

Context {I Sig : Type} `{SpinGroup I Sig}.

Lemma run_kind_signal (dt_grad dt_rf : Q) (k : option kind) (blk : Block)
      (isc isc' : I) (signal signal' : list (list Sig)) :
  run_kind dt_grad dt_rf k blk isc signal = Ok (isc', signal') ->
  match k with
  | Some Adc => exists signal_1D, signal' = signal ++ [signal_1D]
  | _ => signal' = signal
  end.
Proof.
  destruct k as [[| | |]|]; simpl; intros E.
  - apply bind_ok in E as (i & _ & E). now injection E as _ <-.
  - apply bind_ok in E as (i & _ & E). now injection E as _ <-.
  - apply bind_ok in E as ([i s] & _ & E). injection E as _ <-. eauto.
  - apply bind_ok in E as (i & _ & E). now injection E as _ <-.
  - now injection E as _ <-.
Qed.

Lemma run_blocks_signal (seq : Sequence) (events : list (Z * EventRow)) :
  forall (isc isc' : I) (signal signal' : list (list Sig)),
    run_blocks seq events isc signal = Ok (isc', signal') ->
    exists new, signal' = signal ++ new /\ length new = count_adc events.
Proof.
  induction events as [|[key row] events IH]; intros isc isc' signal signal' E.
  - injection E as _ <-. exists []. now rewrite app_nil_r.
  - cbn [run_blocks] in E. apply bind_ok in E as ([i s] & Eb & E).
    rewrite apply_block_run_kind in Eb. apply run_kind_signal in Eb.
    destruct (IH _ _ _ _ E) as (new & -> & Hlen).
    unfold count_adc in *. cbn [filter snd].
    destruct (dispatch row) as [[| | |]|]; subst;
      try (exists new; split; [reflexivity|exact Hlen]).
    destruct Eb as [s1 ->]. exists (s1 :: new). rewrite <- app_assoc.
    split; [reflexivity|]. simpl. now rewrite Hlen.
Qed.

End SignalFacts.

(** X6: when [apply_pulseq] returns, its signal holds one list of
    samples per block dispatched as ADC, in the order of the blocks;
    along the way each block leaves the lists recorded before it as they
    are (a block with a delay or an RF event records nothing even if it
    also carries an ADC event). *)
Theorem signal_has_one_list_per_adc_block
        {I Sig : Type} `{SpinGroup I Sig}
        (seq : Sequence) (isc isc' : I) (signal : list (list Sig)) :
  apply_pulseq isc seq = Ok (isc', signal) ->
  length signal = count_adc (block_events seq)
  /\ forall before after isc1 signal1,
       block_events seq = before ++ after ->
       run_blocks seq before isc [] = Ok (isc1, signal1) ->
       exists new, signal = signal1 ++ new
                   /\ length signal1 = count_adc before
                   /\ length new = count_adc after.
Proof.
  intros E. split.
  - destruct (run_blocks_signal _ _ _ _ _ _ E) as (new & -> & Hlen).
    exact Hlen.
  - intros before after isc1 signal1 Hev Hb.
    unfold apply_pulseq in E. rewrite Hev, run_blocks_app, Hb in E.
    cbn [bind] in E.
    destruct (run_blocks_signal _ _ _ _ _ _ E) as (new & -> & Hlen).
    destruct (run_blocks_signal _ _ _ _ _ _ Hb) as (new1 & -> & Hlen1).
    exists new. auto.
Qed.

Lemma signal_has_one_list_per_adc_block_witness :
  exists isc' signal,
    apply_pulseq (@nil Call) (adc_seq 3) = Ok (isc', signal)
    /\ length signal = 1%nat.
Proof.
  eexists _, _. split; [vm_compute; reflexivity|].
  apply (signal_has_one_list_per_adc_block (H := Recorder) (adc_seq 3) [] _ _
           eq_refl).
Defined.

(** ** Durations and areas *)

Lemma grad_times_trapezoids (blk : Block) (dt1 dt2 : Q) (names : list axis) :
  trapezoids_only blk -> grad_times blk dt1 names = grad_times blk dt2 names.
Proof.
  intros Ht. induction names as [|n names IH]; cbn [grad_times]; [reflexivity|].
  destruct (blk_grad blk n) as [g|] eqn:E; [|exact IH].
  destruct (Ht n g E) as [t ->]. now rewrite IH.
Qed.

(** X7: the raster step given to [find_precessing_time] matters for
    sampled gradients only: on a block whose gradients are all
    trapezoids the result (a duration, or the exception of a block
    without gradient) is the same for every raster step. *)
Theorem find_precessing_time_ignores_raster
        (blk : Block) (dt1 dt2 : Q) :
  trapezoids_only blk ->
  find_precessing_time blk dt1 = find_precessing_time blk dt2.
Proof.
  intros Ht. unfold find_precessing_time.
  now rewrite (grad_times_trapezoids blk dt1 dt2 axes Ht).
Qed.

Lemma find_precessing_time_ignores_raster_witness :
  find_precessing_time grad_blk (1 # 100000) = find_precessing_time grad_blk 7.
Proof.
  apply (find_precessing_time_ignores_raster grad_blk (1 # 100000) 7).
  intros [] g E; inversion E; subst. eauto.
Defined.




(** ** The reconstructed trapezoid stays within its plateau *)

Lemma ramp_bounds (p q : Q) :
  0 <= q -> q <= 1 ->
  (0 <= p -> 0 <= p * q /\ p * q <= p)
  /\ (p <= 0 -> p <= p * q /\ p * q <= 0).
Proof. intros H0 H1. split; intros Hp; split; nra. Qed.

Lemma trap_wave_bounds (g : Trapezoid) (t : Q) :
  0 <= rise_time g -> 0 <= flat_time g -> 0 <= fall_time g ->
  (0 <= amplitude g ->
   0 <= trap_wave g t /\ trap_wave g t <= amplitude g / GAMMA_BAR)
  /\ (amplitude g <= 0 ->
      amplitude g / GAMMA_BAR <= trap_wave g t /\ trap_wave g t <= 0).
Proof.
  intros Hr Hf Hfl. unfold trap_wave.
  assert (HG : 0 < GAMMA_BAR) by reflexivity.
  assert (Hp : (0 <= amplitude g -> 0 <= amplitude g / GAMMA_BAR)
               /\ (amplitude g <= 0 -> amplitude g / GAMMA_BAR <= 0)).
  { split; intros Ha.
    - apply Qle_shift_div_l; [exact HG|lra].
    - apply Qle_shift_div_r; [exact HG|lra]. }
  revert Hp. generalize (amplitude g / GAMMA_BAR) as p.
  generalize dependent (fall_time g). generalize dependent (flat_time g).
  generalize dependent (rise_time g). intros r Hr f Hf fl Hfl p [Hp Hn].
  destruct (Qlt_le_dec t 0) as [H0|H0].
  { split; intros Ha; [specialize (Hp Ha)|specialize (Hn Ha)]; split; lra. }
  destruct (Qlt_le_dec t r) as [H1|H1].
  { assert (Hq0 : 0 <= t / r) by (apply Qle_shift_div_l; lra).
    assert (Hq1 : t / r <= 1) by (apply Qle_shift_div_r; lra).
    assert (E : p * t / r == p * (t / r)) by (field; lra).
    rewrite E. destruct (ramp_bounds p (t / r) Hq0 Hq1) as [B1 B2].
    split; intros Ha; [apply B1, Hp, Ha|apply B2, Hn, Ha]. }
  destruct (Qlt_le_dec t (r + f)) as [H2|H2].
  { split; intros Ha; [specialize (Hp Ha)|specialize (Hn Ha)]; split; lra. }
  destruct (Qlt_le_dec t (r + f + fl)) as [H3|H3].
  { assert (Hq0 : 0 <= (r + f + fl - t) / fl) by (apply Qle_shift_div_l; lra).
    assert (Hq1 : (r + f + fl - t) / fl <= 1) by (apply Qle_shift_div_r; lra).
    assert (E : p * (r + f + fl - t) / fl == p * ((r + f + fl - t) / fl))
      by (field; lra).
    rewrite E. destruct (ramp_bounds p _ Hq0 Hq1) as [B1 B2].
    split; intros Ha; [apply B1, Hp, Ha|apply B2, Hn, Ha]. }
  split; intros Ha; [specialize (Hp Ha)|specialize (Hn Ha)]; split; lra.
Qed.

Lemma trap_wave_outside (g : Trapezoid) (t : Q) :
  0 <= rise_time g -> 0 <= flat_time g -> 0 <= fall_time g ->
  t < 0 \/ rise_time g + flat_time g + fall_time g <= t ->
  trap_wave g t == 0.
Proof.
  intros Hr Hf Hfl Ht. unfold trap_wave.
  destruct (Qlt_le_dec t 0); [reflexivity|].
  destruct (Qlt_le_dec t (rise_time g)); [lra|].
  destruct (Qlt_le_dec t (rise_time g + flat_time g)); [lra|].
  destruct (Qlt_le_dec t (rise_time g + flat_time g + fall_time g)); [lra|].
  reflexivity.
Qed.

(** X9: for a trapezoid with times that are not negative, every value
    of the reconstructed row lies between 0 and the plateau (the
    amplitude divided by the gyromagnetic ratio), whatever the timing
    grid, and is 0 at every grid point before time 0 or not before the
    end of the fall. *)
Theorem trapezoid_row_within_plateau
        (blk : Block) (a : axis) (g : Trapezoid) (dt : Q) (tm : list Q)
        (delay : Q) (grad : list (list Q)) (timing : list Q) (duration : Q) :
  blk_grad blk a = Some (Trap g) ->
  combine_gradients blk dt tm delay = Ok (grad, timing, duration) ->
  0 <= rise_time g -> 0 <= flat_time g -> 0 <= fall_time g ->
  exists row,
    nth_error grad (axis_index a) = Some row
    /\ (0 <= amplitude g ->
        Forall (fun v => 0 <= v /\ v <= amplitude g / GAMMA_BAR) row)
    /\ (amplitude g <= 0 ->
        Forall (fun v => amplitude g / GAMMA_BAR <= v /\ v <= 0) row)
    /\ forall i t v,
         nth_error timing i = Some t -> nth_error row i = Some v ->
         t < 0 \/ rise_time g + flat_time g + fall_time g <= t ->
         v == 0.
Proof.
  intros Ha Hcg Hr Hf Hfl.
  destruct (combine_gradients_axis _ _ _ _ _ _ _ a Hcg) as (row & Hn & Hrow).
  exists row. split; [exact Hn|].
  unfold grad_row in Hrow. rewrite Ha in Hrow. simpl in Hrow.
  injection Hrow as <-.
  split; [|split].
  - intros Hamp. apply Forall_forall. intros v Hin.
    apply in_map_iff in Hin as (t & <- & _).
    pose proof (interp1_trap g t Hr Hf Hfl) as E.
    cbn [g_time g_shape combine] in E. rewrite E.
    now apply (trap_wave_bounds g t Hr Hf Hfl).
  - intros Hamp. apply Forall_forall. intros v Hin.
    apply in_map_iff in Hin as (t & <- & _).
    pose proof (interp1_trap g t Hr Hf Hfl) as E.
    cbn [g_time g_shape combine] in E. rewrite E.
    now apply (trap_wave_bounds g t Hr Hf Hfl).
  - intros i t v Ht Hv Hout. rewrite nth_error_map, Ht in Hv.
    injection Hv as <-.
    pose proof (interp1_trap g t Hr Hf Hfl) as E.
    cbn [g_time g_shape combine] in E. rewrite E.
    now apply trap_wave_outside.
Qed.

Lemma trapezoid_row_within_plateau_witness :
  exists grad timing duration row,
    combine_gradients (adc_blk 3) (1 # 2) [] (1 # 2) = Ok (grad, timing, duration)
    /\ nth_error grad 0 = Some row
    /\ Forall (fun v => 0 <= v /\ v <= GAMMA_BAR / GAMMA_BAR) row.
Proof.
  destruct (trapezoid_row_within_plateau
              (adc_blk 3) gx trap1 (1 # 2) [] (1 # 2)
              (map (fun a => map (grad_value (adc_blk 3) a)
                                 (0 :: Np.arange (1 # 2) 3 (1 # 2))) axes)
              (0 :: Np.arange (1 # 2) 3 (1 # 2)) 3 eq_refl)
    as (row & Hn & Hpos & _).
  - vm_compute. reflexivity.
  - discriminate.
  - discriminate.
  - discriminate.
  - eexists _, _, _, row. split; [vm_compute; reflexivity|].
    split; [exact Hn|]. apply Hpos. discriminate.
Defined.

(** ** The two reconstructions of a trapezoid agree on its area *)

Lemma interp_trap_area (g : Trapezoid) (timing : list Q) :
  0 <= rise_time g -> 0 <= flat_time g -> 0 < fall_time g ->
  0 < rise_time g \/ Forall (fun t => 0 <= t) timing ->
  StronglySorted Qle timing ->
  on_grid timing 0 ->
  on_grid timing (rise_time g + flat_time g + fall_time g) ->
  (forall c, In c [0; rise_time g; rise_time g + flat_time g;
                   rise_time g + flat_time g + fall_time g] ->
             on_grid timing c) ->
  Np.trapz_pts
    (combine timing
       (map (Np.interp1 (combine (g_time (Trap g)) (g_shape (Trap g)))) timing))
  == analytic_area g.
Proof.
  intros Hr Hf Hfl H0 Hs G0 G3 Hall.
  rewrite (trapz_pts_ext _ (trap_wave g) timing).
  2:{ intros t. apply (interp1_trap g t); auto. now apply Qlt_le_weak. }
  destruct timing as [|a0 l].
  { destruct G0 as (x & [] & _). }
  rewrite (trapz_telescope g _ Hr Hf Hfl eq_refl l a0 Hs).
  - rewrite trap_integral_right; auto.
    + rewrite trap_integral_left; auto.
      * ring.
      * destruct H0 as [H0|H0]; [now left|right]. now inversion H0.
      * destruct G0 as (x & Hx & Ex). rewrite <- Ex.
        now apply (sorted_head_le a0 x l).
    + destruct G3 as (x & Hx & Ex). rewrite <- Ex.
      now apply sorted_le_last.
  - intros c Hc. right. now apply Hall.
  - destruct H0 as [H0|H0]; [now left|right]. now inversion H0.
Qed.

(** X10: for a trapezoid whose stored area is that of its shape
    (amplitude times flat time plus half the ramps), the area that
    [combine_gradient_areas] hands to a gradients-only block equals the
    trapezoidal-rule integral of the row that [combine_gradients]
    reconstructs, over a sorted grid holding the control points (fall
    time positive, no grid point before time 0 when the rise time is
    0): the area-based and the waveform-based reconstruction give the
    same net displacement. *)
Theorem area_and_waveform_agree
        (blk : Block) (a : axis) (g : Trapezoid) (dt : Q) (tm : list Q)
        (delay : Q) (grad : list (list Q)) (timing : list Q) (duration : Q)
        (areas : list Q) :
  blk_grad blk a = Some (Trap g) ->
  area_consistent g ->
  combine_gradients blk dt tm delay = Ok (grad, timing, duration) ->
  combine_gradient_areas blk = Ok areas ->
  0 <= rise_time g -> 0 <= flat_time g -> 0 < fall_time g ->
  0 < rise_time g \/ Forall (fun t => 0 <= t) timing ->
  StronglySorted Qle timing ->
  (forall c, In c [0; rise_time g; rise_time g + flat_time g;
                   rise_time g + flat_time g + fall_time g] ->
             on_grid timing c) ->
  exists row integral fp_area,
    nth_error grad (axis_index a) = Some row
    /\ Np.trapz row timing = Ok integral
    /\ nth_error areas (axis_index a) = Some fp_area
    /\ fp_area == integral.
Proof.
  intros Ha Hc Hcg Hca Hr Hf Hfl H0 Hs Hall.
  destruct (combine_gradients_axis _ _ _ _ _ _ _ a Hcg) as (row & Hn & Hrow).
  unfold grad_row in Hrow. rewrite Ha in Hrow. simpl in Hrow.
  injection Hrow as <-.
  unfold combine_gradient_areas, axes in Hca. cbn [mapM] in Hca.
  apply bind_ok in Hca as (l & Hl & Hca). injection Hca as <-.
  apply bind_ok in Hl as (qx & Ex & Hl). apply bind_ok in Hl as (l1 & Hl & E1).
  apply bind_ok in Hl as (qy & Ey & Hl). apply bind_ok in Hl as (l2 & Hl & E2).
  apply bind_ok in Hl as (qz & Ez & Hl). simpl in Hl.
  injection Hl as <-. injection E2 as <-. injection E1 as <-.
  assert (Ear : analytic_area g == area g / GAMMA_BAR).
  { unfold analytic_area, area_consistent in *. rewrite Hc. field. discriminate. }
  eexists _, _, (area g / GAMMA_BAR). split; [exact Hn|]. unfold Np.trapz.
  rewrite length_map, Nat.eqb_refl. split; [reflexivity|]. split.
  - destruct a; rewrite Ha in *; cbn [g_area] in *;
      [injection Ex as <-|injection Ey as <-|injection Ez as <-]; reflexivity.
  - rewrite <- Ear. symmetry.
    apply (interp_trap_area g timing Hr Hf Hfl H0 Hs); auto;
      apply Hall; simpl; auto 6.
Qed.

Lemma area_and_waveform_agree_witness :
  exists grad timing duration areas row integral fp_area,
    combine_gradients grad_blk 0 [0; 1 # 2; 1; 2; 5 # 2; 3; 4] 0
    = Ok (grad, timing, duration)
    /\ combine_gradient_areas grad_blk = Ok areas
    /\ nth_error grad 0 = Some row
    /\ Np.trapz row timing = Ok integral
    /\ nth_error areas 0 = Some fp_area
    /\ fp_area == integral.
Proof.
  destruct (area_and_waveform_agree
              grad_blk gx trap1 0 [0; 1 # 2; 1; 2; 5 # 2; 3; 4] 0
              (map (fun a => map (grad_value grad_blk a)
                                 [0; 1 # 2; 1; 2; 5 # 2; 3; 4]) axes)
              [0; 1 # 2; 1; 2; 5 # 2; 3; 4] 4
              [2 * GAMMA_BAR / GAMMA_BAR; 0 / GAMMA_BAR; 0 / GAMMA_BAR]
              eq_refl)
    as (row & w & ar & Hn & Ht & Hna & Har).
  - reflexivity.
  - vm_compute. reflexivity.
  - reflexivity.
  - discriminate.
  - discriminate.
  - reflexivity.
  - left. reflexivity.
  - repeat constructor; discriminate.
  - intros c [<-|[<-|[<-|[<-|[]]]]].
    + exists 0. split; [simpl; auto|reflexivity].
    + exists 1. split; [simpl; auto|reflexivity].
    + exists 2. split; [simpl; auto|reflexivity].
    + exists 3. split; [simpl; auto 7|reflexivity].
  - eexists _, _, _, _, row, w, ar. split; [vm_compute; reflexivity|].
    split; [reflexivity|]. auto.
Defined.

(** ** The ensemble *)

Lemma map2_length {A : Type} (f : A -> A -> A) (a b : list A) :
  length a = length b -> length (map2 f a b) = length a.
Proof.
  unfold map2. intros E. rewrite length_map, length_combine, E.
  apply Nat.min_id.
Qed.

Lemma shape_map2 {A : Type} (f : A -> A -> A) (a b : list (list A)) :
  shape a = shape b -> shape (map2 (map2 f) a b) = shape a.
Proof.
  unfold shape, map2. revert b. induction a as [|ra a IH]; intros [|rb b];
    simpl; try discriminate; [reflexivity|].
  intros [= Er Es]. f_equal; [|now apply IH].
  now apply (map2_length f ra rb).
Qed.

Lemma shape_fold {A : Type} (f : A -> A -> A) (rest : list (list (list A))) :
  forall m0,
    Forall (fun m => shape m = shape m0) rest ->
    shape (fold_left (map2 (map2 f)) rest m0) = shape m0.
Proof.
  induction rest as [|m rest IH]; intros m0 Hall; [reflexivity|].
  inversion Hall as [|? ? Hm Hrest]; subst. simpl.
  assert (E : shape (map2 (map2 f) m0 m) = shape m0)
    by now apply shape_map2.
  rewrite IH; [exact E|].
  eapply Forall_impl; [|exact Hrest]. simpl. intros m' ->. now symmetry.
Qed.

Lemma mapM_In {A B : Type} (f : A -> result B) (l : list A) (bs : list B) :
  mapM f l = Ok bs ->
  forall a, In a l -> exists b, f a = Ok b /\ In b bs.
Proof.
  intros E. apply mapM_Forall2 in E.
  induction E as [|a0 b0 l bs Hab _ IH]; intros a [].
  - subst. exists b0. split; [exact Hab|now left].
  - destruct (IH a H) as (b & Eb & Hin). exists b. split; [exact Eb|now right].
Qed.

Section EnsembleMore.

Context {I Sig : Type} `{SpinGroup I Sig}.
Context {Loc Params : Type}.

Variable new_SpinGroup : Loc -> Params -> Q -> I.
Variable sig_add : Sig -> Sig -> Sig.
Variable sig_zero : Sig.

(** X11: the ensemble signal does not depend on the order of the
    locations, addition of samples being associative and commutative. *)
Theorem ensemble_order_irrelevant
        (locs locs' : list nat) (df : Q) (phantom : Phantom Loc Params)
        (seq : Sequence) (e : ndarray Sig) :
  (forall a b c, sig_add (sig_add a b) c = sig_add a (sig_add b c)) ->
  (forall a b, sig_add a b = sig_add b a) ->
  Permutation locs locs' ->
  ensemble new_SpinGroup sig_add sig_zero locs' df phantom seq = Ok e ->
  ensemble new_SpinGroup sig_add sig_zero locs df phantom seq = Ok e.
Proof.
  intros Hassoc Hcomm Hp E. unfold ensemble in *.
  apply bind_ok in E as (rs' & Ers' & E).
  destruct (mapM_perm _ _ _ Hp _ Ers') as (rs & Ers & Hperm).
  rewrite Ers. cbn [bind].
  pose proof (np_sum_axis0_ok sig_add sig_zero _ _ E) as Hh'.
  assert (Hh : homogeneous rs = true)
    by (apply (homogeneous_perm rs'); [now apply Permutation_sym|exact Hh']).
  rewrite (np_sum_axis0_spec sig_add sig_zero Hassoc rs Hh).
  rewrite (np_sum_axis0_spec sig_add sig_zero Hassoc rs' Hh') in E.
  rewrite <- E.
  now rewrite (sum_opt_perm _ (mat_add_assoc sig_add Hassoc)
                 (mat_add_comm sig_add Hcomm) _ _ Hperm).
Qed.

(** X12: the ensemble signal over some locations has the shape of the
    signal of each of these locations: as many ADC blocks, and as many
    samples in each. *)
Theorem ensemble_keeps_shape
        (locs : list nat) (df : Q) (phantom : Phantom Loc Params)
        (seq : Sequence) (m : list (list Sig)) :
  ensemble new_SpinGroup sig_add sig_zero locs df phantom seq = Ok (Matrix m) ->
  forall loc_ind, In loc_ind locs ->
    exists signal,
      sim_single_spingroup new_SpinGroup loc_ind df phantom seq = Ok signal
      /\ shape signal = shape m.
Proof.
  intros E loc Hin. unfold ensemble in E.
  apply bind_ok in E as (rs & Ers & E).
  destruct (mapM_In _ _ _ Ers loc Hin) as (signal & Esig & Hsig).
  exists signal. split; [exact Esig|].
  unfold np_sum_axis0 in E. destruct (homogeneous rs) eqn:Hh; [|discriminate].
  destruct rs as [|m0 rest]; [discriminate|]. injection E as <-.
  apply homogeneous_spec in Hh as [Hnil|(sh & _ & Hall)]; [discriminate|].
  unfold mat_add. rewrite shape_fold.
  - rewrite Forall_forall in Hall.
    rewrite (Hall signal Hsig). symmetry. apply Hall. now left.
  - inversion Hall as [|? ? E0 Hrest]; subst.
    eapply Forall_impl; [|exact Hrest]. simpl. now intros m' ->.
Qed.

(** X13: the locations fail together: when the simulation of one
    location raises an exception, the ensemble over any locations, at
    least one, raises that exception. *)
Theorem ensemble_fails_with_any_location
        (locs : list nat) (loc_ind : nat) (df : Q)
        (phantom : Phantom Loc Params) (seq : Sequence) (e : exn) :
  sim_single_spingroup new_SpinGroup loc_ind df phantom seq = Raise e ->
  locs <> [] ->
  ensemble new_SpinGroup sig_add sig_zero locs df phantom seq = Raise e.
Proof.
  intros E Hne. destruct locs as [|l0 locs]; [congruence|].
  pose proof (sim_shape new_SpinGroup phantom phantom seq l0 loc_ind df df) as Es.
  rewrite E in Es. unfold ensemble. cbn [mapM].
  destruct (sim_single_spingroup new_SpinGroup l0 df phantom seq) as [s|e0];
    simpl in Es; [discriminate|].
  now injection Es as ->.
Qed.

End EnsembleMore.

Lemma ensemble_order_irrelevant_witness :
  ensemble (H := Counter) new_Counter Z.add 0%Z [2; 0; 1]%nat 0
           line_phantom (adc_seq 3)
  = Ok (Matrix [[36; 39; 42]%Z]).
Proof.
  apply (ensemble_order_irrelevant (H := Counter) new_Counter Z.add 0%Z
           [2; 0; 1]%nat [0; 1; 2]%nat 0 line_phantom (adc_seq 3) _
           (fun a b c => eq_sym (Z.add_assoc a b c)) Z.add_comm).
  - apply Permutation_sym.
    apply perm_trans with [0; 2; 1]%nat; [apply perm_skip, perm_swap|].
    apply perm_swap.
  - vm_compute. reflexivity.
Defined.

Lemma ensemble_keeps_shape_witness :
  exists signal,
    sim_single_spingroup (H := Counter) new_Counter 1 0 line_phantom (adc_seq 3)
    = Ok signal
    /\ shape signal = [3%nat].
Proof.
  apply (ensemble_keeps_shape (H := Counter) new_Counter Z.add 0%Z
           [0; 1; 2]%nat 0 line_phantom (adc_seq 3) [[36; 39; 42]%Z]).
  - vm_compute. reflexivity.
  - simpl. auto.
Defined.

Lemma ensemble_fails_with_any_location_witness :
  ensemble (H := Counter) new_Counter Z.add 0%Z [0; 1; 2]%nat 0
           line_phantom adc_only_seq
  = Raise ValueError.
Proof.
  apply (ensemble_fails_with_any_location (H := Counter) new_Counter Z.add 0%Z
           [0; 1; 2]%nat 5 0 line_phantom adc_only_seq ValueError).
  - vm_compute. reflexivity.
  - discriminate.
Defined.

(** ** The polarity restoration of the T1 mapping *)

Module T1MappingFacts.

Import T1Mapping.

Lemma argmin_from_spec (l : list Q) :
  forall (pre : list Q) (best : Q) (best_loc : nat),
    (best_loc < length pre)%nat ->
    nth best_loc pre 0 = best ->
    (forall j, (j < length pre)%nat -> best <= nth j pre 0) ->
    (forall j, (j < best_loc)%nat -> best < nth j pre 0) ->
    let m := argmin_from best best_loc (length pre) l in
    (m < length (pre ++ l))%nat
    /\ (forall j, (j < length (pre ++ l))%nat ->
                  nth m (pre ++ l) 0 <= nth j (pre ++ l) 0)
    /\ (forall j, (j < m)%nat -> nth m (pre ++ l) 0 < nth j (pre ++ l) 0).
Proof.
  induction l as [|x l IH]; intros pre best best_loc Hloc Hbest Hmin Hfirst.
  - cbn [argmin_from]. rewrite app_nil_r, Hbest. auto.
  - cbn [argmin_from]. cbn zeta.
    replace (pre ++ x :: l) with ((pre ++ [x]) ++ l) by now rewrite <- app_assoc.
    assert (Hlen : length (pre ++ [x]) = S (length pre))
      by (rewrite length_app; simpl; lia).
    destruct (Qlt_le_dec x best) as [Hlt|Hle].
    + rewrite <- Hlen. apply IH.
      * lia.
      * now rewrite app_nth2, Nat.sub_diag by lia.
      * intros j Hj. rewrite Hlen in Hj.
        destruct (Nat.eq_dec j (length pre)) as [->|Hne].
        -- rewrite app_nth2, Nat.sub_diag by lia. apply Qle_refl.
        -- rewrite app_nth1 by lia. apply Qlt_le_weak.
           apply Qlt_le_trans with best; [exact Hlt|]. apply Hmin. lia.
      * intros j Hj. rewrite app_nth1 by lia.
        apply Qlt_le_trans with best; [exact Hlt|]. apply Hmin. lia.
    + rewrite <- Hlen. apply IH.
      * lia.
      * now rewrite app_nth1 by lia.
      * intros j Hj. rewrite Hlen in Hj.
        destruct (Nat.eq_dec j (length pre)) as [->|Hne].
        -- now rewrite app_nth2, Nat.sub_diag by lia.
        -- rewrite app_nth1 by lia. apply Hmin. lia.
      * intros j Hj. rewrite app_nth1 by lia. now apply Hfirst.
Qed.

(** X14: [np.argmin] raises [ValueError] on no sample; on samples it
    returns the index, within bounds, of a least sample, and of the
    first one: every earlier sample is greater. *)
Theorem argmin_first_least (y_data : list Q) :
  (y_data = [] -> argmin y_data = Raise ValueError)
  /\ (y_data <> [] ->
      exists min_loc,
        argmin y_data = Ok min_loc
        /\ (min_loc < length y_data)%nat
        /\ (forall j, (j < length y_data)%nat ->
                      nth min_loc y_data 0 <= nth j y_data 0)
        /\ (forall j, (j < min_loc)%nat ->
                      nth min_loc y_data 0 < nth j y_data 0)).
Proof.
  split; [now intros ->|]. intros Hne.
  destruct y_data as [|x l]; [congruence|].
  exists (argmin_from x 0 1 l). split; [reflexivity|].
  apply (argmin_from_spec l [x] x 0%nat).
  - simpl. lia.
  - reflexivity.
  - intros [|j] Hj; simpl in *; [apply Qle_refl|lia].
  - intros j Hj. lia.
Qed.

Lemma argmin_first_least_witness :
  exists min_loc,
    argmin [3; 1; 2; 1] = Ok min_loc
    /\ (min_loc < 4)%nat
    /\ nth min_loc [3; 1; 2; 1] 0 < nth 0 [3; 1; 2; 1] 0.
Proof.
  destruct (argmin_first_least [3; 1; 2; 1]) as [_ Hs].
  destruct Hs as (m & Em & Hlt & _ & Hfirst); [discriminate|].
  exists m. split; [exact Em|]. split; [exact Hlt|].
  apply Hfirst. injection Em as <-. vm_compute. lia.
Defined.

Lemma index_app (pre rest : list Q) (x : Q) :
  index (pre ++ x :: rest) (length pre) = Ok x.
Proof.
  unfold index. rewrite nth_error_app2, Nat.sub_diag by lia. reflexivity.
Qed.

Lemma setitem_app (pre rest : list Q) (x v : Q) :
  setitem (pre ++ x :: rest) (length pre) v = Ok (pre ++ v :: rest).
Proof.
  induction pre as [|p pre IH]; simpl; [reflexivity|]. now rewrite IH.
Qed.

Lemma flip_loop_spec (todo : nat) :
  forall pre rest,
    (todo <= length rest)%nat ->
    flip_loop todo (length pre) (pre ++ rest)
    = Ok (pre ++ map Qopp (firstn todo rest) ++ skipn todo rest).
Proof.
  induction todo as [|todo IH]; intros pre rest Hlen.
  - reflexivity.
  - destruct rest as [|x rest]; [simpl in Hlen; lia|].
    cbn [flip_loop]. rewrite index_app. cbn [bind].
    rewrite setitem_app. cbn [bind].
    replace (pre ++ - x :: rest) with ((pre ++ [- x]) ++ rest)
      by now rewrite <- app_assoc.
    replace (S (length pre)) with (length (pre ++ [- x]))
      by (rewrite length_app; simpl; lia).
    rewrite IH by (simpl in Hlen; lia).
    now rewrite <- app_assoc.
Qed.

(** X15: the polarity restoration of one pixel never fails on at least
    one sample (no index leaves the array) and raises [ValueError] on
    none; it keeps the number of samples, negates exactly the samples
    before the first least one, and leaves the others as they are. *)
Theorem restore_polarity_flips_before_minimum (y_data : list Q) :
  (y_data = [] -> restore_polarity y_data = Raise ValueError)
  /\ (y_data <> [] ->
      exists min_loc flipped,
        argmin y_data = Ok min_loc
        /\ restore_polarity y_data = Ok flipped
        /\ flipped = map Qopp (firstn min_loc y_data) ++ skipn min_loc y_data
        /\ length flipped = length y_data
        /\ (forall j, (j < min_loc)%nat ->
                      nth j flipped 0 = - nth j y_data 0)
        /\ (forall j, (min_loc <= j)%nat ->
                      nth j flipped 0 = nth j y_data 0)).
Proof.
  split; [now intros ->|]. intros Hne.
  destruct (argmin_first_least y_data) as [_ Hs].
  destruct (Hs Hne) as (m & Em & Hlt & _ & _).
  exists m, (map Qopp (firstn m y_data) ++ skipn m y_data).
  split; [exact Em|]. split; [|split; [reflexivity|]].
  - unfold restore_polarity. rewrite Em. cbn [bind]. rewrite Nat.sub_0_r.
    apply (flip_loop_spec m [] y_data). lia.
  - assert (Hf : length (map Qopp (firstn m y_data)) = m)
      by (rewrite length_map, length_firstn; lia).
    split; [|split].
    + rewrite length_app, Hf, length_skipn. lia.
    + intros j Hj. rewrite app_nth1 by lia.
      rewrite (nth_indep _ 0 (- 0)) by lia.
      rewrite map_nth. f_equal.
      rewrite <- (firstn_skipn m y_data) at 2.
      rewrite app_nth1; [reflexivity|]. rewrite length_firstn. lia.
    + intros j Hj. rewrite app_nth2 by lia. rewrite Hf.
      rewrite <- (firstn_skipn m y_data) at 2.
      rewrite app_nth2 by (rewrite length_firstn; lia).
      rewrite length_firstn. f_equal. lia.
Qed.

Lemma restore_polarity_flips_before_minimum_witness :
  restore_polarity [3; 2; 1; 2; 3] = Ok [- 3; - 2; 1; 2; 3].
Proof.
  destruct (restore_polarity_flips_before_minimum [3; 2; 1; 2; 3]) as [_ Hs].
  destruct Hs as (m & fl & Em & Er & Ef & _); [discriminate|].
  rewrite Er, Ef. injection Em as <-. reflexivity.
Defined.

End T1MappingFacts.
